(** * Search-as-you-type widget: debounce, fetch-on-query-change hook, highlighting

  A shallow embedding of

  - [src/utils/debounce.ts]            (module [Debounce]),
  - the [useFetchOnQueryChange] hook   (module [Hook]),
  - the [highlightMatch] helper        (module [Highlight]),

  together with the part of the JavaScript host they rely on: the timer
  queue behind [setTimeout]/[clearTimeout] (module [Timer]) and the string
  primitives [toLowerCase], [indexOf] and [substring] (module [JsString]).

  Time is counted in whole timer units (milliseconds).  The code is
  single-threaded: every function below is one synchronous block of the
  source, and the event loop is the list of events that is folded over a
  state.

  What is left to the environment: [fetchData] is the caller's function, so
  a call of it is recorded and its promise settles by an event of its own;
  the hook is followed from its mount to, and not including, its unmount.
  Delays are natural numbers; the host keeps a delay in a signed 32-bit
  integer, so only delays up to 2^31 - 1 ms are waited for as given. *)

From Stdlib Require Import List Arith Bool ZArith Lia String Ascii Permutation.
Import ListNotations.

Set Implicit Arguments.

(* ================================================================= *)
(** ** The host's timer queue *)

Module Timer.

(** The largest delay the host keeps as it is given: 2^31 - 1. *)
Definition TIMEOUT_MAX : Z := 2147483647.

(** [setTimeout] takes its delay as a [long] (HTML Standard, timers): the
    number is reduced modulo 2^32 into the range from -2^31 to 2^31 - 1. *)
Definition to_long (delay : nat) : Z :=
  let m := (Z.of_nat delay mod 4294967296)%Z in
  if (m <=? TIMEOUT_MAX)%Z then m else (m - 4294967296)%Z.

(** The time the host lets pass before the callback may run: a negative
    delay counts as none.  So a delay up to [TIMEOUT_MAX] is waited for in
    full, and one of 2^31 is not waited for at all.  (Node.js, for a delay
    above [TIMEOUT_MAX], waits 1 ms; the hosts agree up to [TIMEOUT_MAX].) *)
Definition timeout (delay : nat) : nat := Z.to_nat (Z.max 0 (to_long delay)).

Arguments timeout : simpl never.

Section Host.

(** What a timer callback is; the clients below defunctionalise their
    closures into a value of this type. *)
Variable A : Type.

Record timer : Type := mkTimer
  { tid : nat;          (* the handle returned by [setTimeout] *)
    due : nat;          (* the instant at which the callback may run *)
    callback : A }.

Record host : Type := mkHost
  { now : nat;
    fresh : nat;        (* next handle; handles are never reused *)
    pending : list timer }.

Definition idle (t0 id0 : nat) : host := mkHost t0 id0 [].

(** [setTimeout(cb, delay)]: returns the new handle. *)
Definition setTimeout (cb : A) (delay : nat) (h : host) : nat * host :=
  (fresh h,
   mkHost (now h) (S (fresh h))
          (pending h ++ [mkTimer (fresh h) (now h + timeout delay) cb])).

(** [clearTimeout(id)]: forgets the timer with that handle; silently does
    nothing when the handle is unknown or has already fired. *)
Definition clearTimeout (id : nat) (h : host) : host :=
  mkHost (now h) (fresh h)
         (filter (fun t => negb (tid t =? id)) (pending h)).

(** Timers run by due time, and in creation order among equal due times. *)
Fixpoint enqueue (t : timer) (q : list timer) : list timer :=
  match q with
  | [] => [t]
  | u :: q' => if due t <? due u then t :: q else u :: enqueue t q'
  end.

Definition firing_order (ts : list timer) : list timer :=
  fold_left (fun q t => enqueue t q) ts [].

(** Let [dt] units pass: every timer that is due by then runs, none runs
    before it is due.  Returns the callbacks that ran, in order, and the
    host afterwards.  The queue holds the timers of the code followed here;
    their callbacks call neither [setTimeout] nor [clearTimeout], so they
    can be handed back to the client in one batch.  Timers of other code
    have handles of their own and cannot be cleared from here. *)
Definition advance (dt : nat) (h : host) : list A * host :=
  let limit := now h + dt in
  let (ready, rest) := partition (fun t => due t <=? limit) (pending h) in
  (map callback (firing_order ready), mkHost limit (fresh h) rest).

End Host.

(** The length of a series of waits. *)
Definition total (ws : list nat) : nat := fold_right Nat.add 0 ws.

End Timer.

(* ================================================================= *)
(** ** [debounce] *)

Module Debounce.
Import Timer.

Section Instance.

(** [Parameters<T>]: the argument tuple of the wrapped function. *)
Variable A : Type.
Variable delay : nat.

(** The closure variable [timerId] is threaded explicitly, next to the
    host.  The timer callback [() => func(...args)] is represented by the
    captured [args]. *)
Definition debouncedFunction (args : A) (timerId : option nat) (h : host A)
  : option nat * host A :=
  let h1 := match timerId with
            | Some id => clearTimeout id h
            | None => h
            end in
  let (id, h2) := setTimeout args delay h1 in
  (Some id, h2).

Definition cancel (timerId : option nat) (h : host A)
  : option nat * host A :=
  match timerId with
  | Some id => (None, clearTimeout id h)
  | None => (timerId, h)
  end.

(** One debounced function on its own: its [timerId], the host, and the
    trace of the calls [func(...args)] made so far. *)
Record world : Type := mkWorld
  { timerId : option nat;
    env : host A;
    calls : list A }.

Definition init (t0 id0 : nat) : world := mkWorld None (idle A t0 id0) [].

Definition trigger (args : A) (w : world) : world :=
  let (t, h) := debouncedFunction args (timerId w) (env w) in
  mkWorld t h (calls w).

Definition cancel_now (w : world) : world :=
  let (t, h) := cancel (timerId w) (env w) in
  mkWorld t h (calls w).

Definition elapse (dt : nat) (w : world) : world :=
  let (ran, h) := advance dt (env w) in
  mkWorld (timerId w) h (calls w ++ ran).

Inductive op : Type :=
| Call (args : A)
| Cancel
| Wait (dt : nat).

Definition step (w : world) (o : op) : world :=
  match o with
  | Call args => trigger args w
  | Cancel => cancel_now w
  | Wait dt => elapse dt w
  end.

Definition run (ops : list op) (w : world) : world := fold_left step ops w.

(** A burst: one call, then further calls, each after the given gap. *)
Definition burst (a1 : A) (rest : list (nat * A)) : list op :=
  Call a1 :: flat_map (fun ga => [Wait (fst ga); Call (snd ga)]) rest.

Definition final_args (a1 : A) (rest : list (nat * A)) : A :=
  last (map snd rest) a1.

(** Every timer in the queue is the one [timerId] points to. *)
Definition tidy (w : world) : Prop :=
  forall t, In t (pending (env w)) -> timerId w = Some (tid t).

(** At most one timer is queued, and [timerId] is its handle. *)
Definition single_timer (w : world) : Prop :=
  pending (env w) = [] \/
  exists t, timerId w = Some (tid t) /\ pending (env w) = [t].

(** The debounced function has just been called with [a]: one timer is
    queued for it, to run after the time the host makes of [delay], and
    [timerId] is its handle. *)
Definition armed (a : A) (w : world) : Prop :=
  exists id,
    timerId w = Some id /\
    pending (env w) = [mkTimer id (now (env w) + timeout delay) a].

End Instance.

End Debounce.

(* ================================================================= *)
(** ** JavaScript strings *)

Module JsString.

(** A string is its sequence of UTF-16 code units. *)
Definition jsstring : Type := list nat.

Definition js (s : string) : jsstring :=
  map nat_of_ascii (list_ascii_of_string s).

(** [s.length] *)
Definition len (s : jsstring) : Z := Z.of_nat (List.length s).

(** [s === t] *)
Fixpoint eqb (s t : jsstring) : bool :=
  match s, t with
  | [], [] => true
  | c :: s', d :: t' => (c =? d)%nat && eqb s' t'
  | _, _ => false
  end.

Fixpoint starts_with (p s : jsstring) : bool :=
  match p, s with
  | [], _ => true
  | _ :: _, [] => false
  | c :: p', d :: s' => (c =? d)%nat && starts_with p' s'
  end.

Fixpoint indexOf_from (k : nat) (s search : jsstring) : Z :=
  match s with
  | [] => if starts_with search [] then Z.of_nat k else (-1)%Z
  | _ :: s' =>
      if starts_with search s then Z.of_nat k
      else indexOf_from (S k) s' search
  end.

(** [s.indexOf(search)]: the first position at which [search] occurs,
    [-1] when there is none. *)
Definition indexOf (s search : jsstring) : Z := indexOf_from 0 s search.

(** [s.substring(start, end)]: both indices are clamped to [0, s.length]
    and swapped when [start > end]. *)
Definition substring (s : jsstring) (start finish : Z) : jsstring :=
  let clamp i := Z.min (Z.max i 0) (len s) in
  let from := Z.min (clamp start) (clamp finish) in
  let to := Z.max (clamp start) (clamp finish) in
  firstn (Z.to_nat (to - from)) (skipn (Z.to_nat from) s).

(** [s.substring(start)] *)
Definition substring_from (s : jsstring) (start : Z) : jsstring :=
  substring s start (len s).

(** [toLowerCase] follows the Unicode case mapping, which is not reproduced
    here in full.  The table below is the part of it that the examples of
    this development evaluate: Basic Latin, Latin-1, and U+0130 (capital I
    with dot above), whose lower case is the two units U+0069 U+0307
    (SpecialCasing.txt).  [highlightMatch] takes the mapping as a parameter,
    and its general properties are proved for any mapping. *)
Definition lower_unit (c : nat) : list nat :=
  if ((65 <=? c) && (c <=? 90))%nat then [c + 32]
  else if ((192 <=? c) && (c <=? 222) && negb (c =? 215))%nat then [c + 32]
  else if (c =? 304)%nat then [105; 775]
  else [c].

Definition toLowerCase (s : jsstring) : jsstring := flat_map lower_unit s.

End JsString.

(* ================================================================= *)
(** ** [highlightMatch] *)

Module Highlight.
Import JsString.

(** The JSX the function returns: either the bare text, or a fragment whose
    children are strings and [<strong>] elements. *)
Inductive child : Type :=
| Text (s : jsstring)
| Strong (s : jsstring).

Inductive rendered : Type :=
| Plain (s : jsstring)
| Fragment (children : list child).

Section WithLowerCase.

(** [String.prototype.toLowerCase] of the host. *)
Variable toLowerCase : jsstring -> jsstring.

Definition highlightMatch (text query : jsstring) : rendered :=
  let startIndex := indexOf (toLowerCase text) (toLowerCase query) in
  if (startIndex =? -1)%Z then Plain text
  else
    let endIndex := (startIndex + len query)%Z in
    Fragment [ Text (substring text 0 startIndex);
               Strong (substring text startIndex endIndex);
               Text (substring_from text endIndex) ].

End WithLowerCase.

Definition content (c : child) : jsstring :=
  match c with Text s => s | Strong s => s end.

(** The characters shown on screen. *)
Definition shown (r : rendered) : jsstring :=
  match r with
  | Plain s => s
  | Fragment cs => flat_map content cs
  end.

Definition emphasized (r : rendered) : list jsstring :=
  match r with
  | Plain _ => []
  | Fragment cs =>
      flat_map (fun c => match c with Strong s => [s] | Text _ => [] end) cs
  end.

End Highlight.

(* ================================================================= *)
(** ** [useFetchOnQueryChange] *)

Module Hook.
Import Timer JsString.

Section Controller.

Variable T : Type.      (* what [fetchData] resolves to *)
Variable E : Type.      (* what it rejects with *)
Variable delay : nat.

(** The four [useState] cells, as returned by the hook. *)
Record visible : Type := mkVisible
  { data : option T;
    loading : bool;
    loaded : bool;
    error : option E }.

Record state : Type := mkState
  { vis : visible;
    query : jsstring;          (* the [query] of the latest render *)
    timerId : option nat;      (* [timerId] of the latest effect's [debouncedFetch] *)
    env : host jsstring;       (* a timer callback is the [query] its closure holds *)
    inflight : list nat;       (* [fetchData] promises still awaited, by call number *)
    fetched : list jsstring;   (* trace: the argument of every [fetchData] call *)
    entered : list jsstring;   (* trace: the [query] of every run of the action body *)
    uncaught : list E }.       (* trace: errors that escaped the action *)

Definition with_vis (v : visible) (s : state) : state :=
  mkState v (query s) (timerId s) (env s) (inflight s) (fetched s)
          (entered s) (uncaught s).

Definition setData (d : option T) (s : state) : state :=
  with_vis (mkVisible d (loading (vis s)) (loaded (vis s)) (error (vis s))) s.

Definition setLoading (b : bool) (s : state) : state :=
  with_vis (mkVisible (data (vis s)) b (loaded (vis s)) (error (vis s))) s.

Definition setLoaded (b : bool) (s : state) : state :=
  with_vis (mkVisible (data (vis s)) (loading (vis s)) b (error (vis s))) s.

Definition setError (e : option E) (s : state) : state :=
  with_vis (mkVisible (data (vis s)) (loading (vis s)) (loaded (vis s)) e) s.

(** [fetchData(q)]: the collaborator is called and its promise awaited;
    the promise is named by the position of the call in the trace. *)
Definition call_fetchData (q : jsstring) (s : state) : state :=
  mkState (vis s) (query s) (timerId s) (env s)
          (inflight s ++ [List.length (fetched s)]) (fetched s ++ [q])
          (entered s) (uncaught s).

Definition enter (q : jsstring) (s : state) : state :=
  mkState (vis s) (query s) (timerId s) (env s) (inflight s) (fetched s)
          (entered s ++ [q]) (uncaught s).

(** The action handed to [debounce], from its first line to the [await]
    (or to the early [return]).  [q] is the [query] of its closure. *)
Definition fetch_action (q : jsstring) (s : state) : state :=
  let s := enter q s in
  if eqb q [] then
    let s := setLoaded false s in
    let s := setData None s in
    setLoading false s
  else
    let s := setLoaded false s in
    let s := setLoading true s in
    let s := setData None s in
    call_fetchData q s.

(** How the awaited promise settles. *)
Inductive outcome : Type :=
| Fulfilled (response : T)
| Rejected (err : E).

(** A block completes normally ([None]) or throws ([Some e]). *)
Definition completion : Type := option E.

(** [try { body } catch (err) { handler } finally { finalizer }], for a
    finalizer that completes normally: it runs in every case and leaves the
    completion of what came before it as it is. *)
Definition try_catch_finally
    (body : state -> state * completion)
    (handler : E -> state -> state * completion)
    (finalizer : state -> state) (s : state) : state * completion :=
  let (s1, c1) := body s in
  let (s2, c2) := match c1 with
                  | None => (s1, None)
                  | Some e => handler e s1
                  end in
  (finalizer s2, c2).

(** The rest of the action, from the [await] on. *)
Definition resume (o : outcome) : state -> state * completion :=
  try_catch_finally
    (fun s =>
       match o with
       | Fulfilled response =>
           let s := setData (Some response) s in
           let s := setError None s in
           (s, None)
       | Rejected err => (s, Some err)
       end)
    (fun err s => (setError (Some err) s, None))
    (fun s =>
       let s := setLoading false s in
       setLoaded true s).

Definition awaited (i : nat) (s : state) : bool :=
  existsb (Nat.eqb i) (inflight s).

(** The promise of call [i] settles with [o] and the action that awaits it
    runs to its end; an error it would throw is recorded in [uncaught].  A
    promise settles once: nothing happens if [i] is not awaited. *)
Definition settle (i : nat) (o : outcome) (s : state) : state :=
  if awaited i s then
    let s := mkState (vis s) (query s) (timerId s) (env s)
                     (filter (fun j => negb (j =? i)) (inflight s))
                     (fetched s) (entered s) (uncaught s) in
    let (s, c) := resume o s in
    match c with
    | None => s
    | Some e =>
        mkState (vis s) (query s) (timerId s) (env s) (inflight s)
                (fetched s) (entered s) (uncaught s ++ [e])
    end
  else s.

(** The effect body: [debounce(...)] makes a new [timerId = null], and
    [debouncedFetch()] arms it. *)
Definition effect (s : state) : state :=
  let (t, h) := Debounce.debouncedFunction delay (query s) None (env s) in
  mkState (vis s) (query s) t h (inflight s) (fetched s) (entered s)
          (uncaught s).

(** The function the effect returns: [debouncedFetch.cancel()]. *)
Definition cleanup (s : state) : state :=
  let (t, h) := Debounce.cancel (timerId s) (env s) in
  mkState (vis s) (query s) t h (inflight s) (fetched s) (entered s)
          (uncaught s).

Definition mount (q : jsstring) (t0 id0 : nat) : state :=
  effect (mkState (mkVisible None false false None) q None
                  (idle jsstring t0 id0) [] [] [] []).

(** A render with [query = q]; the dependency list is [[query]], so the
    previous cleanup and the effect run only when [q] is a new value. *)
Definition render (q : jsstring) (s : state) : state :=
  if eqb q (query s) then s
  else
    let s := cleanup s in
    effect (mkState (vis s) q (timerId s) (env s) (inflight s) (fetched s)
                    (entered s) (uncaught s)).

Definition with_env (h : host jsstring) (s : state) : state :=
  mkState (vis s) (query s) (timerId s) h (inflight s) (fetched s)
          (entered s) (uncaught s).

Definition elapse (dt : nat) (s : state) : state :=
  let (ran, h) := advance dt (env s) in
  fold_left (fun s q => fetch_action q s) ran (with_env h s).

Inductive event : Type :=
| Render (q : jsstring)
| Wait (dt : nat)
| Settle (i : nat) (o : outcome).

Definition step (s : state) (ev : event) : state :=
  match ev with
  | Render q => render q s
  | Wait dt => elapse dt s
  | Settle i o => settle i o s
  end.

Definition run (evs : list event) (s : state) : state := fold_left step evs s.

Inductive reachable : state -> Prop :=
| reach_mount : forall q t0 id0, reachable (mount q t0 id0)
| reach_step : forall s ev, reachable s -> reachable (step s ev).

(** The query string has just changed to [q]: by the first render, or by a
    render with a new value. *)
Inductive just_changed (q : jsstring) : state -> Prop :=
| first_render : forall t0 id0, just_changed q (mount q t0 id0)
| new_query : forall s,
    reachable s -> q <> query s -> just_changed q (render q s).

(** Every timer in the queue is the one [timerId] points to. *)
Definition tidy (s : state) : Prop :=
  forall t, In t (pending (env s)) -> timerId s = Some (tid t).

(** At most one timer is queued, and it is the one of the current query. *)
Definition single_timer (s : state) : Prop :=
  pending (env s) = [] \/
  exists id d,
    timerId s = Some id /\ pending (env s) = [mkTimer id d (query s)].

(** Request [i] is not settled by [ev]. *)
Definition leaves_pending (i : nat) (ev : event) : Prop :=
  match ev with
  | Settle j _ => j <> i
  | _ => True
  end.

(** No fetch resolves at [ev]. *)
Definition resolves_nothing (ev : event) : Prop :=
  match ev with
  | Settle _ (Fulfilled _) => False
  | _ => True
  end.

(** *** Bookkeeping about request cycles

    Not part of the code: which request belongs to the cycle of the latest
    query change, how the latest cycle to settle ended, how the latest
    cycle to settle without having been superseded ended, and the result of
    the latest fetch to resolve since an action last started, if there is
    one. *)
Record monitor : Type := mkMonitor
  { current : option nat;
    last_settled : option outcome;
    last_honoured : option outcome;
    resolved : option T }.

Definition is_current (i : nat) (m : monitor) : bool :=
  match current m with
  | Some j => j =? i
  | None => false
  end.

(** The bookkeeping after the step from [s] to [s'] by [ev].  A render with
    a new query supersedes the current cycle.  A timer that runs during a
    wait is the one of the current cycle (the cleanup has cleared any
    other), so a request made during a wait is the current cycle's; an
    action that starts during a wait leaves no fetch resolved since.  A
    cycle that settles is honoured if it is still the current one. *)
Definition observe (m : monitor) (s : state) (ev : event) (s' : state)
  : monitor :=
  match ev with
  | Render q =>
      if eqb q (query s) then m
      else mkMonitor None (last_settled m) (last_honoured m) (resolved m)
  | Wait _ =>
      if List.length (entered s) <? List.length (entered s') then
        mkMonitor (if List.length (fetched s) <? List.length (fetched s')
                   then Some (List.length (fetched s)) else current m)
                  (last_settled m) (last_honoured m) None
      else m
  | Settle i o =>
      if awaited i s then
        mkMonitor (current m) (Some o)
                  (if is_current i m then Some o else last_honoured m)
                  (match o with
                   | Fulfilled response => Some response
                   | Rejected _ => resolved m
                   end)
      else m
  end.

Definition mstep (ms : monitor * state) (ev : event) : monitor * state :=
  let s' := step (snd ms) ev in
  (observe (fst ms) (snd ms) ev s', s').

Definition mrun (evs : list event) (ms : monitor * state)
  : monitor * state := fold_left mstep evs ms.

Definition mmount (q : jsstring) (t0 id0 : nat) : monitor * state :=
  (mkMonitor None None None None, mount q t0 id0).

Inductive mreachable : monitor * state -> Prop :=
| mreach_mount : forall q t0 id0, mreachable (mmount q t0 id0)
| mreach_step : forall ms ev, mreachable ms -> mreachable (mstep ms ev).

(** The visible [data]/[error] pair is the one cycle [o] leaves behind. *)
Definition reflects (o : outcome) (v : visible) : Prop :=
  match o with
  | Fulfilled r => data v = Some r /\ error v = None
  | Rejected e => data v = None /\ error v = Some e
  end.

(** The invariant of the visible state as the specification words it. *)
Definition stated_invariant (ms : monitor * state) : Prop :=
  loading (vis (snd ms)) && loaded (vis (snd ms)) = false /\
  (loaded (vis (snd ms)) = true ->
   exists o, last_honoured (fst ms) = Some o /\ reflects o (vis (snd ms))).

(** What the code keeps of it: the cycle is the latest one to settle,
    superseded or not; after a rejection [data] is the result of the latest
    fetch to resolve since an action last started, and [null] if there is
    none. *)
Definition kept_invariant (ms : monitor * state) : Prop :=
  loading (vis (snd ms)) && loaded (vis (snd ms)) = false /\
  (loaded (vis (snd ms)) = true ->
   exists o,
     last_settled (fst ms) = Some o /\
     match o with
     | Fulfilled r =>
         data (vis (snd ms)) = Some r /\ error (vis (snd ms)) = None
     | Rejected e =>
         error (vis (snd ms)) = Some e /\
         data (vis (snd ms)) = resolved (fst ms)
     end).

(** The [error] that a cycle leaves behind when it settles. *)
Definition error_of (o : option outcome) : option E :=
  match o with
  | Some (Rejected e) => Some e
  | _ => None
  end.

(** [kept_invariant], with what holds whether [loaded] is true or not:
    [data] is the result of the latest fetch to resolve since an action
    last started, [null] if there is none, and [error] is the error of the
    latest cycle to settle, [null] if it resolved or if none has settled. *)
Definition inductive_invariant (ms : monitor * state) : Prop :=
  kept_invariant ms /\
  data (vis (snd ms)) = resolved (fst ms) /\
  error (vis (snd ms)) = error_of (last_settled (fst ms)).

(** What a timer with callback [q] adds to the two traces when it runs. *)
Definition ran_once (fires : bool) (q : jsstring) (s s' : state) : Prop :=
  entered s' = entered s ++ (if fires then [q] else []) /\
  fetched s' =
    fetched s ++ (if fires then (if eqb q [] then [] else [q]) else []).

End Controller.

End Hook.

(* ================================================================= *)
(** ** Concrete data for the scenarios *)

Module Scenario.
Import JsString.

(** A result item [{id, name}]. *)
Definition item : Type := (nat * jsstring)%type.

Definition apple : list item := [(1, js "Apple")].

Definition network_down : jsstring := js "network down".

(** The hook's default delay. *)
Definition default_delay : nat := 400.

(** A delay of 2^31 ms, one more than the host keeps. *)
Definition overlong_delay : nat := Z.to_nat 2147483648.

(** The hook as the widget uses it: mounted at time 0 with the first timer
    handle 1, results are lists of items, errors are messages. *)
Definition mounted (q : jsstring) : Hook.state (list item) jsstring :=
  Hook.mount (list item) jsstring default_delay q 0 1.

Definition watched (q : jsstring)
  : Hook.monitor (list item) jsstring * Hook.state (list item) jsstring :=
  Hook.mmount (list item) jsstring default_delay q 0 1.

(** Type "a"; the delay passes and "a" is fetched; type "p"; the delay
    passes and "ap" is fetched while the first fetch is still awaited. *)
Definition two_fetches : list (Hook.event (list item) jsstring) :=
  [ Hook.Wait _ _ 400; Hook.Render _ _ (js "ap"); Hook.Wait _ _ 400 ].

End Scenario.

(* ================================================================= *)
(** ** Traces: what was asked for, in order *)

Module Trace.

Section Subseq.

Variable A : Type.

(** [subseq l1 l2]: [l1] is [l2] with some elements left out. *)
Inductive subseq : list A -> list A -> Prop :=
| subseq_nil : subseq [] []
| subseq_skip : forall x l1 l2, subseq l1 l2 -> subseq l1 (x :: l2)
| subseq_take : forall x l1 l2, subseq l1 l2 -> subseq (x :: l1) (x :: l2).

(** [prefix l1 l2]: [l2] starts with [l1]. *)
Definition prefix (l1 l2 : list A) : Prop := exists rest, l2 = l1 ++ rest.

End Subseq.

Section OfDebounce.

Variable A : Type.

(** The arguments of the calls of the debounced function, in order. *)
Definition called (ops : list (Debounce.op A)) : list A :=
  flat_map (fun o => match o with
                     | Debounce.Call args => [args]
                     | _ => []
                     end) ops.

(** Where the runs stand with respect to the calls made: with no timer
    queued, the runs are a selection of the calls; with one queued, it
    holds the arguments of the last call, and the runs are a selection of
    the calls before it. *)
Definition accounted (called_so_far : list A) (w : Debounce.world A) : Prop :=
  (Timer.pending (Debounce.env w) = [] /\ subseq (Debounce.calls w) called_so_far) \/
  (exists t before,
      Debounce.timerId w = Some (Timer.tid t) /\ Timer.pending (Debounce.env w) = [t] /\
      called_so_far = before ++ [Timer.callback t] /\
      subseq (Debounce.calls w) before).

End OfDebounce.

Section OfHook.
Import JsString Timer.

Variable T : Type.
Variable E : Type.

(** The values the query takes after [cur], in order: a render with the
    value the query already has is no change. *)
Fixpoint changes (cur : jsstring) (evs : list (Hook.event T E))
  : list jsstring :=
  match evs with
  | [] => []
  | Hook.Render _ _ q :: evs' =>
      if eqb q cur then changes cur evs' else q :: changes q evs'
  | _ :: evs' => changes cur evs'
  end.

Definition no_render (ev : Hook.event T E) : Prop :=
  match ev with
  | Hook.Render _ _ _ => False
  | _ => True
  end.

Definition no_settle (ev : Hook.event T E) : Prop :=
  match ev with
  | Hook.Settle _ _ => False
  | _ => True
  end.

(** Whether a timer with [left] units to go runs during [evs]: it runs at
    the first wait that reaches its time. *)
Fixpoint fired_by (left : nat) (evs : list (Hook.event T E)) : bool :=
  match evs with
  | [] => false
  | Hook.Wait _ _ d :: evs' => (left <=? d) || fired_by (left - d) evs'
  | _ :: evs' => fired_by left evs'
  end.

(** No queued timer is due later than [delay] from now. *)
Definition punctual (delay : nat) (s : Hook.state T E) : Prop :=
  forall t, In t (pending (Hook.env s)) ->
            due t <= now (Hook.env s) + delay.

(** The time that passes during [evs]. *)
Definition waited (evs : list (Hook.event T E)) : nat :=
  fold_right (fun ev n => match ev with
                          | Hook.Wait _ _ d => d + n
                          | _ => n
                          end) 0 evs.

(** [query !== ""] *)
Definition nonempty (q : jsstring) : bool := negb (eqb q []).

(** Where the actions entered stand with respect to the values the query
    has taken ([history], the current value last): with no timer queued,
    they are a selection of them; with one queued, it is the timer of the
    current value, and they are a selection of the values before it. *)
Definition hook_accounted (history : list jsstring) (s : Hook.state T E)
  : Prop :=
  (pending (Hook.env s) = [] /\ subseq (Hook.entered s) history) \/
  (exists id d before,
      Hook.timerId s = Some id /\
      pending (Hook.env s) = [mkTimer id d (Hook.query s)] /\
      history = before ++ [Hook.query s] /\
      subseq (Hook.entered s) before).

(** Every promise that settles in [evs] is the oldest one awaited, and it
    resolves to the value [resp] gives for the query of its call: an API
    that answers in the order of the calls, by a function of the query, and
    never rejects. *)
Definition in_turn (resp : jsstring -> T) (s : Hook.state T E)
    (ev : Hook.event T E) : Prop :=
  match ev with
  | Hook.Settle i o =>
      hd_error (Hook.inflight s) = Some i /\
      exists q, nth_error (Hook.fetched s) i = Some q /\
                o = Hook.Fulfilled E (resp q)
  | _ => True
  end.

Fixpoint answered_in_order
    (resp : jsstring -> T) (delay : nat)
    (evs : list (Hook.event T E)) (s : Hook.state T E) : Prop :=
  match evs with
  | [] => True
  | ev :: evs' =>
      in_turn resp s ev /\
      answered_in_order resp delay evs' (Hook.step delay s ev)
  end.

(** The promises awaited are those of the latest calls. *)
Definition awaits_latest (s : Hook.state T E) : Prop :=
  exists k,
    k <= List.length (Hook.fetched s) /\
    Hook.inflight s = seq k (List.length (Hook.fetched s) - k).

(** Once nothing is awaited, the answer to the last action is on display,
    if that action was one for a non-empty query. *)
Definition shows_latest (resp : jsstring -> T) (s : Hook.state T E) : Prop :=
  forall before q,
    Hook.entered s = before ++ [q] ->
    nonempty q = true ->
    Hook.inflight s = [] ->
    Hook.vis s = Hook.mkVisible (Some (resp q)) false true None.

(** With no timer queued, the last action entered is the one of the current
    query. *)
Definition caught_up (s : Hook.state T E) : Prop :=
  pending (Hook.env s) = [] ->
  exists before, Hook.entered s = before ++ [Hook.query s].

(** What holds all along a run that is [answered_in_order]. *)
Definition in_step (delay : nat) (resp : jsstring -> T) (s : Hook.state T E)
  : Prop :=
  Hook.reachable delay s /\ awaits_latest s /\ shows_latest resp s /\
  caught_up s.

End OfHook.

End Trace.

(* ================================================================= *)
(** ** The mock API: [getFruitListByQuery] *)

Module Api.
Import Timer JsString.

Definition item : Type := Scenario.item.
Definition id (it : item) : nat := fst it.
Definition name (it : item) : jsstring := snd it.

(** [s.includes(search)] *)
Definition includes (s search : jsstring) : bool :=
  negb (indexOf s search =? -1)%Z.

Section Mock.

(** [String.prototype.toLowerCase] of the host. *)
Variable toLowerCase : jsstring -> jsstring.

(** [FRUIT_DATA] of [./mocks], which is not among the sources. *)
Variable FRUIT_DATA : list item.

(** [FRUIT_DATA.filter((item) =>
       item.name.toLowerCase().includes(query.toLowerCase()))] *)
Definition filteredData (query : jsstring) : list item :=
  filter (fun it => includes (toLowerCase (name it)) (toLowerCase query))
         FRUIT_DATA.

(** The delay that stands for the network. *)
Definition latency : nat := 500.

(** The promises of the API on their own: a timer callback is the number of
    the promise it resolves and the [query] of its closure; [resolved] lists
    the promises resolved so far with their values, in the order in which
    they were resolved.  No code path rejects a promise. *)
Record world : Type := mkWorld
  { env : host (nat * jsstring);
    requested : list jsstring;
    resolved : list (nat * list item) }.

Definition init (t0 id0 : nat) : world :=
  mkWorld (idle (nat * jsstring) t0 id0) [] [].

Definition getFruitListByQuery (query : jsstring) (w : world) : world :=
  let (_, h) :=
    setTimeout (List.length (requested w), query) latency (env w) in
  mkWorld h (requested w ++ [query]) (resolved w).

(** What the timer callback of promise [fst pq] does when it runs. *)
Definition answer (pq : nat * jsstring) : nat * list item :=
  (fst pq, filteredData (snd pq)).

Definition elapse (dt : nat) (w : world) : world :=
  let (ran, h) := advance dt (env w) in
  mkWorld h (requested w) (resolved w ++ map answer ran).

Inductive op : Type :=
| Get (query : jsstring)
| Wait (dt : nat).

Definition step (w : world) (o : op) : world :=
  match o with
  | Get query => getFruitListByQuery query w
  | Wait dt => elapse dt w
  end.

Definition run (ops : list op) (w : world) : world := fold_left step ops w.

(** Every promise asked for so far, with the value it is to get. *)
Definition answers (w : world) : list (nat * list item) :=
  map answer (combine (seq 0 (List.length (requested w))) (requested w)).

(** The queue is in firing order. *)
Fixpoint in_order (ts : list (timer (nat * jsstring))) : Prop :=
  match ts with
  | [] => True
  | t :: rest => Forall (fun u => due t <= due u) rest /\ in_order rest
  end.

(** What holds of the promises at all times. *)
Definition consistent (w : world) : Prop :=
  in_order (pending (env w)) /\
  (forall t, In t (pending (env w)) -> due t <= now (env w) + latency) /\
  resolved w ++ map answer (map (@callback _) (pending (env w))) = answers w.

End Mock.

(** [p] occurs in [s]. *)
Definition occurs (p s : jsstring) : Prop :=
  exists i, i <= List.length s /\ starts_with p (skipn i s) = true.

End Api.

(* ================================================================= *)
(** ** The [Autocomplete] component and its [Input] *)

Module Autocomplete.
Import JsString Highlight.

Section Component.

Variable toLowerCase : jsstring -> jsstring.
Variable E : Type.

Abbreviation item := Scenario.item.
Abbreviation visible := (Hook.visible (list item) E).
Abbreviation hook := (Hook.state (list item) E).

(** What is inside the dropdown [<div>]: [<div>Loading...</div>], the
    [<ul>] with one [<li key={item.id}>] per item, [<div>No results
    found.</div>], or nothing (the expression is [false]). *)
Inductive panel : Type :=
| Loading
| Results (rows : list (nat * rendered))
| NoResults
| Blank.

(** [{loading ? ... : loaded && (data && data.length > 0 ? ... : ...)}] *)
Definition dropdown (query : jsstring) (v : visible) : panel :=
  if Hook.loading v then Loading
  else if Hook.loaded v then
    match Hook.data v with
    | Some (first :: more) =>
        Results (map (fun it => (fst it,
                                 highlightMatch toLowerCase (snd it) query))
                     (first :: more))
    | _ => NoResults
    end
  else Blank.

(** [(loading || loaded) && query.length > 0 && focused] *)
Definition dropDownVisible (focused : bool) (query : jsstring) (v : visible)
  : bool :=
  (Hook.loading v || Hook.loaded v) && (0 <? len query)%Z && focused.

(** The component: its [focused] cell, and the hook, whose [query] is the
    component's [query] cell.  The hook is called without a delay, so with
    its default. *)
Record app : Type := mkApp
  { focused : bool;
    fetching : hook }.

Definition delay : nat := Scenario.default_delay.

(** What can happen: [Input] calls [onChange] with the new value or
    [onFocusChange] with [true] (focus) or [false] (blur); time passes; the
    promise of a [fetchResults] call settles. *)
Inductive action : Type :=
| Change (value : jsstring)
| FocusChange (b : bool)
| Tick (dt : nat)
| Answer (i : nat) (o : Hook.outcome (list item) E).

Definition act (a : app) (x : action) : app :=
  match x with
  | Change value => mkApp (focused a) (Hook.render delay value (fetching a))
  | FocusChange b => mkApp b (fetching a)
  | Tick dt => mkApp (focused a) (Hook.elapse dt (fetching a))
  | Answer i o => mkApp (focused a) (Hook.settle i o (fetching a))
  end.

(** [useState(false)], [useState("")]. *)
Definition start (t0 id0 : nat) : app :=
  mkApp false (Hook.mount (list item) E delay [] t0 id0).

Definition play (xs : list action) (a : app) : app := fold_left act xs a.

(** What the user sees: the value in the input, whether the dropdown has
    the [visible] class, and what is inside it. *)
Record screen : Type := mkScreen
  { value : jsstring;
    open : bool;
    inside : panel }.

Definition show (a : app) : screen :=
  let q := Hook.query (fetching a) in
  let v := Hook.vis (fetching a) in
  mkScreen q (dropDownVisible (focused a) q v) (dropdown q v).

(** The text of a row as it reads on screen. *)
Definition row_text (row : nat * rendered) : jsstring := shown (snd row).

End Component.

End Autocomplete.

(* ================================================================= *)
(** ** Sample data *)

Module Sample.
Import JsString.

(** A list in the shape of [FRUIT_DATA]. *)
Definition fruits : list Api.item :=
  [ (1, js "Apple"); (2, js "Banana"); (3, js "Grape");
    (4, js "Pineapple") ].

(** Lower case, unit by unit, for Basic Latin. *)
Definition ascii_lower (c : nat) : nat :=
  if ((65 <=? c) && (c <=? 90))%nat then c + 32 else c.

End Sample.

(* ================================================================= *)
(** * Properties of the timer queue *)

Module TimerFacts.
Import Timer.

Section Host.

Variable A : Type.

Lemma advance_idle (dt : nat) (h : host A) :
  pending h = [] ->
  advance dt h = ([], mkHost (now h + dt) (fresh h) []).
Proof.
  intros Hp. unfold advance. rewrite Hp. reflexivity.
Qed.

Lemma advance_one (dt : nat) (h : host A) (t : timer A) :
  pending h = [t] ->
  advance dt h =
    if due t <=? now h + dt
    then ([callback t], mkHost (now h + dt) (fresh h) [])
    else ([], mkHost (now h + dt) (fresh h) [t]).
Proof.
  intros Hp. unfold advance. rewrite Hp. simpl.
  destruct (due t <=? now h + dt); reflexivity.
Qed.

(** Clearing the only handle in use empties the queue; this covers the
    handle of a timer that has fired, which is in no queue any more. *)
Lemma clear_own (id : nat) (ts : list (timer A)) :
  (forall t, In t ts -> tid t = id) ->
  filter (fun t => negb (tid t =? id)) ts = [].
Proof.
  induction ts as [|t ts IH]; intros Hown; simpl.
  - reflexivity.
  - rewrite (Hown t (or_introl eq_refl)), Nat.eqb_refl. simpl.
    apply IH. intros u Hu. apply Hown. now right.
Qed.

Lemma clear_absent (id : nat) (h : host A) :
  (forall t, In t (pending h) -> tid t <> id) ->
  clearTimeout id h = h.
Proof.
  destruct h as [n f ts]. unfold clearTimeout. simpl. intros Hab.
  f_equal. induction ts as [|t ts IH]; simpl.
  - reflexivity.
  - destruct (Nat.eqb_spec (tid t) id) as [Heq|Hne]; simpl.
    + exfalso. apply (Hab t); [now left | exact Heq].
    + f_equal. apply IH. intros u Hu. apply Hab. now right.
Qed.

End Host.

Section Queue.

Variable A : Type.

Lemma enqueue_perm (t : timer A) (q : list (timer A)) :
  Permutation (enqueue t q) (t :: q).
Proof.
  induction q as [|u q IH]; simpl; [reflexivity|].
  destruct (due t <? due u); [reflexivity|].
  rewrite IH. apply perm_swap.
Qed.

Lemma firing_order_perm (ts : list (timer A)) :
  Permutation (firing_order ts) ts.
Proof.
  unfold firing_order.
  assert (H : forall q, Permutation
                          (fold_left (fun q t => enqueue t q) ts q)
                          (q ++ ts)).
  { induction ts as [|t ts IH]; intros q; simpl.
    - now rewrite app_nil_r.
    - rewrite IH, enqueue_perm. apply Permutation_middle. }
  apply (H []).
Qed.

(** What [advance] does with the queue: the timers that run are those due
    by the end of the wait, each once; the others stay. *)
Lemma advance_spec (dt : nat) (h : host A) :
  Permutation (fst (advance dt h))
              (map (@callback A)
                   (filter (fun t => due t <=? now h + dt) (pending h))) /\
  pending (snd (advance dt h)) =
    filter (fun t => negb (due t <=? now h + dt)) (pending h) /\
  now (snd (advance dt h)) = now h + dt.
Proof.
  unfold advance. rewrite partition_as_filter. simpl.
  split; [|split; reflexivity].
  apply Permutation_map, firing_order_perm.
Qed.

End Queue.

Lemma leb_shift (n a b : nat) : (n + a <=? n + b) = (a <=? b).
Proof.
  destruct (Nat.leb_spec a b); [apply Nat.leb_le | apply Nat.leb_gt]; lia.
Qed.

(** A delay up to [TIMEOUT_MAX] is waited for in full. *)
Lemma timeout_in_range (delay : nat) :
  (Z.of_nat delay <= TIMEOUT_MAX)%Z -> timeout delay = delay.
Proof.
  unfold timeout, to_long, TIMEOUT_MAX. intros H. cbv zeta.
  rewrite Z.mod_small by lia.
  destruct (Z.leb_spec (Z.of_nat delay) 2147483647); lia.
Qed.

(** The host never waits longer than it is asked to. *)
Lemma timeout_le (delay : nat) : timeout delay <= delay.
Proof.
  unfold timeout, to_long, TIMEOUT_MAX. cbv zeta.
  assert (H : (0 <= Z.of_nat delay mod 4294967296 <= Z.of_nat delay)%Z).
  { split; [apply Z.mod_pos_bound | apply Z.mod_le]; lia. }
  destruct (Z.leb_spec (Z.of_nat delay mod 4294967296) 2147483647); lia.
Qed.

(** A delay of 2^31 is not waited for at all. *)
Lemma timeout_wraps : timeout (Z.to_nat 2147483648) = 0.
Proof.
  unfold timeout, to_long. rewrite Z2Nat.id by lia. reflexivity.
Qed.

End TimerFacts.

(* ================================================================= *)
(** * Properties of [debounce] *)

Module DebounceFacts.
Import Timer Debounce TimerFacts.

Section Instance.

Variable A : Type.
Variable delay : nat.

Abbreviation world := (world A).
Abbreviation trigger := (trigger delay).
Abbreviation run := (run delay).
Abbreviation step := (step delay).
Abbreviation armed := (armed delay).

Lemma tidy_init (t0 id0 : nat) : tidy (init A t0 id0).
Proof. intros t []. Qed.

Lemma trigger_tidy (a : A) (w : world) :
  tidy w ->
  trigger a w =
    mkWorld (Some (fresh (env w)))
            (mkHost (now (env w)) (S (fresh (env w)))
                    [mkTimer (fresh (env w)) (now (env w) + timeout delay) a])
            (calls w).
Proof.
  intros Ht. unfold trigger, debouncedFunction.
  destruct w as [[id|] [n f ts] cs]; unfold tidy in Ht; simpl in *.
  - unfold setTimeout. simpl. rewrite clear_own; [reflexivity|].
    intros t Hin. specialize (Ht t Hin). congruence.
  - destruct ts as [|t ts]; [reflexivity|].
    specialize (Ht t (or_introl eq_refl)). discriminate.
Qed.

Lemma cancel_tidy (w : world) :
  tidy w ->
  cancel_now w =
    mkWorld None (mkHost (now (env w)) (fresh (env w)) []) (calls w).
Proof.
  intros Ht. unfold cancel_now, cancel.
  destruct w as [[id|] [n f ts] cs]; unfold tidy in Ht; simpl in *.
  - unfold clearTimeout. simpl. rewrite clear_own; [reflexivity|].
    intros t Hin. specialize (Ht t Hin). congruence.
  - destruct ts as [|t ts]; [reflexivity|].
    specialize (Ht t (or_introl eq_refl)). discriminate.
Qed.

Lemma elapse_idle (dt : nat) (w : world) :
  pending (env w) = [] ->
  elapse dt w =
    mkWorld (timerId w) (mkHost (now (env w) + dt) (fresh (env w)) [])
            (calls w).
Proof.
  intros Hp. unfold elapse. rewrite (advance_idle dt _ Hp).
  now rewrite app_nil_r.
Qed.

Lemma elapse_armed (dt : nat) (w : world) (t : timer A) :
  pending (env w) = [t] ->
  elapse dt w =
    if due t <=? now (env w) + dt
    then mkWorld (timerId w)
                 (mkHost (now (env w) + dt) (fresh (env w)) [])
                 (calls w ++ [callback t])
    else mkWorld (timerId w)
                 (mkHost (now (env w) + dt) (fresh (env w)) [t])
                 (calls w).
Proof.
  intros Hp. unfold elapse. rewrite (advance_one dt _ Hp).
  destruct (due t <=? now (env w) + dt); [reflexivity|].
  now rewrite app_nil_r.
Qed.

Lemma elapse_pending (dt : nat) (w : world) (t : timer A) :
  In t (pending (env (elapse dt w))) -> In t (pending (env w)).
Proof.
  unfold elapse, advance.
  destruct (partition _ (pending (env w))) as [ready rest] eqn:Hpart.
  simpl. intros Hin.
  apply (elements_in_partition _ _ Hpart). now right.
Qed.

Lemma tidy_step (w : world) (o : op A) : tidy w -> tidy (step w o).
Proof.
  intros Ht. destruct o as [a| |dt]; simpl.
  - rewrite (trigger_tidy a Ht). intros t [<-|[]]. reflexivity.
  - rewrite (cancel_tidy Ht). intros t [].
  - intros t Hin. apply elapse_pending in Hin.
    unfold elapse. destruct (advance dt (env w)). simpl. now apply Ht.
Qed.

Lemma tidy_run (ops : list (op A)) (w : world) : tidy w -> tidy (run ops w).
Proof.
  revert w. induction ops as [|o ops IH]; intros w Ht; simpl.
  - exact Ht.
  - apply IH. now apply tidy_step.
Qed.

Lemma run_app (ops1 ops2 : list (op A)) (w : world) :
  run (ops1 ++ ops2) w = run ops2 (run ops1 w).
Proof. apply fold_left_app. Qed.

Lemma single_timer_tidy (w : world) : single_timer w -> tidy w.
Proof.
  intros [Hnil|[t [Hid Hp]]] u Hin; rewrite ?Hnil, ?Hp in Hin.
  - destruct Hin.
  - destruct Hin as [<-|[]]. exact Hid.
Qed.

Lemma single_timer_step (w : world) (o : op A) :
  single_timer w -> single_timer (step w o).
Proof.
  intros Hs. pose proof (single_timer_tidy Hs) as Ht.
  destruct o as [a| |dt]; simpl.
  - rewrite (trigger_tidy a Ht). right.
    exists (mkTimer (fresh (env w)) (now (env w) + timeout delay) a).
    split; reflexivity.
  - rewrite (cancel_tidy Ht). now left.
  - destruct Hs as [Hnil|[t [Hid Hp]]].
    + rewrite (elapse_idle dt _ Hnil). now left.
    + rewrite (elapse_armed dt _ Hp).
      destruct (due t <=? now (env w) + dt); [now left|].
      right. exists t. split; [exact Hid | reflexivity].
Qed.

(** One debounced function never has more than one timer queued. *)
Lemma single_timer_run (ops : list (op A)) (t0 id0 : nat) :
  single_timer (run ops (init A t0 id0)) /\
  List.length (pending (env (run ops (init A t0 id0)))) <= 1.
Proof.
  assert (Hs : single_timer (run ops (init A t0 id0))).
  { generalize (init A t0 id0), (or_introl eq_refl : single_timer (init A t0 id0)).
    induction ops as [|o ops IH]; intros w Hw; simpl; [exact Hw|].
    apply IH. now apply single_timer_step. }
  split; [exact Hs|].
  destruct Hs as [->|[t [_ ->]]]; simpl; lia.
Qed.

Lemma trigger_armed (a : A) (w : world) :
  tidy w -> armed a (trigger a w) /\ calls (trigger a w) = calls w.
Proof.
  intros Ht. rewrite (trigger_tidy a Ht). split; [|reflexivity].
  exists (fresh (env w)). split; reflexivity.
Qed.

Lemma burst_cons (a1 : A) (g : nat) (a2 : A) (rest : list (nat * A))
      (w : world) :
  run (burst a1 ((g, a2) :: rest)) w =
  run (burst a2 rest) (elapse g (trigger a1 w)).
Proof. reflexivity. Qed.

Lemma last_cons (l : list A) :
  forall a1 a2 : A, last (a2 :: l) a1 = last l a2.
Proof.
  induction l as [|x l IH]; intros a1 a2; [reflexivity|].
  change (last (a2 :: x :: l) a1) with (last (x :: l) a1).
  rewrite (IH a1 x). symmetry. apply (IH a2 x).
Qed.

Lemma final_args_cons (a1 : A) (g : nat) (a2 : A) (rest : list (nat * A)) :
  final_args a1 ((g, a2) :: rest) = final_args a2 rest.
Proof. unfold final_args. apply last_cons. Qed.

(** During a burst nothing runs, and at its end the timer of the last call
    is the one queued. *)
Lemma burst_armed (rest : list (nat * A)) :
  forall (a1 : A) (w : world),
    tidy w ->
    Forall (fun ga => fst ga < timeout delay) rest ->
    armed (final_args a1 rest) (run (burst a1 rest) w) /\
    calls (run (burst a1 rest) w) = calls w.
Proof.
  induction rest as [|[g a2] rest IH]; intros a1 w Ht Hgaps.
  - apply (trigger_armed a1 Ht).
  - rewrite burst_cons, final_args_cons.
    inversion Hgaps as [|? ? Hg Hrest]; subst. simpl in Hg.
    destruct (trigger_armed a1 Ht) as [[id [Hid Hp]] Hc].
    assert (Hnot : (now (env (trigger a1 w)) + timeout delay
                    <=? now (env (trigger a1 w)) + g) = false)
      by (apply Nat.leb_gt; lia).
    assert (Hel : elapse g (trigger a1 w) =
                  mkWorld (timerId (trigger a1 w))
                    (mkHost (now (env (trigger a1 w)) + g)
                            (fresh (env (trigger a1 w)))
                            [mkTimer id (now (env (trigger a1 w)) + timeout delay) a1])
                    (calls (trigger a1 w))).
    { rewrite (elapse_armed g _ Hp). cbn [due]. now rewrite Hnot. }
    destruct (IH a2 (elapse g (trigger a1 w))) as [Harm Hcalls].
    + apply (tidy_step (Wait A g)). apply (tidy_step (Call a1)). exact Ht.
    + exact Hrest.
    + split; [exact Harm|]. rewrite Hcalls, Hel. simpl. exact Hc.
Qed.

Lemma waits_idle (ws : list nat) :
  forall w : world,
    pending (env w) = [] ->
    calls (run (map (@Wait A) ws) w) = calls w /\
    timerId (run (map (@Wait A) ws) w) = timerId w /\
    pending (env (run (map (@Wait A) ws) w)) = [].
Proof.
  induction ws as [|d ws IH]; intros w Hp; simpl.
  - auto.
  - rewrite (elapse_idle d _ Hp).
    destruct (IH (mkWorld (timerId w)
                          (mkHost (now (env w) + d) (fresh (env w)) [])
                          (calls w)) eq_refl) as (Hc & Ht & Hq).
    auto.
Qed.

(** One queued timer that is not due yet, and any number of waits: the
    callback runs once, as soon as the waits reach the due time, and not
    before.  [timerId] keeps the handle throughout. *)
Lemma waits_armed (ws : list nat) :
  forall (w : world) (t : timer A),
    pending (env w) = [t] ->
    now (env w) < due t ->
    calls (run (map (@Wait A) ws) w) =
      calls w ++ (if due t <=? now (env w) + total ws
                  then [callback t] else []) /\
    timerId (run (map (@Wait A) ws) w) = timerId w /\
    pending (env (run (map (@Wait A) ws) w)) =
      (if due t <=? now (env w) + total ws then [] else [t]).
Proof.
  induction ws as [|d ws IH]; intros w t Hp Hlt.
  - simpl. rewrite Nat.add_0_r.
    assert (Hn : (due t <=? now (env w)) = false) by (apply Nat.leb_gt; lia).
    rewrite Hn, app_nil_r. auto.
  - simpl. rewrite (elapse_armed d _ Hp).
    destruct (due t <=? now (env w) + d) eqn:Hd.
    + apply Nat.leb_le in Hd.
      assert (Hy : (due t <=? now (env w) + (d + total ws)) = true)
        by (apply Nat.leb_le; lia).
      rewrite Hy.
      destruct (waits_idle ws
                  (mkWorld (timerId w)
                           (mkHost (now (env w) + d) (fresh (env w)) [])
                           (calls w ++ [callback t])) eq_refl)
        as (Hc & Ht & Hq).
      auto.
    + apply Nat.leb_gt in Hd.
      destruct (IH (mkWorld (timerId w)
                            (mkHost (now (env w) + d) (fresh (env w)) [t])
                            (calls w)) t eq_refl) as (Hc & Ht & Hq).
      * simpl. lia.
      * simpl in Hc, Ht, Hq. rewrite Nat.add_assoc. auto.
Qed.

(** The same from the moment the timer is queued, when it may already be
    due ([delay = 0]): it runs at the first wait that reaches its time. *)
Lemma waits_queued (d : nat) (ws : list nat) (w : world) (t : timer A) :
  pending (env w) = [t] ->
  calls (run (map (@Wait A) (d :: ws)) w) =
    calls w ++ (if due t <=? now (env w) + total (d :: ws)
                then [callback t] else []) /\
  timerId (run (map (@Wait A) (d :: ws)) w) = timerId w /\
  pending (env (run (map (@Wait A) (d :: ws)) w)) =
    (if due t <=? now (env w) + total (d :: ws) then [] else [t]).
Proof.
  intros Hp. simpl. rewrite (elapse_armed d _ Hp).
  destruct (due t <=? now (env w) + d) eqn:Hd.
  - apply Nat.leb_le in Hd.
    assert (Hy : (due t <=? now (env w) + (d + total ws)) = true)
      by (apply Nat.leb_le; lia).
    rewrite Hy.
    destruct (waits_idle ws
                (mkWorld (timerId w)
                         (mkHost (now (env w) + d) (fresh (env w)) [])
                         (calls w ++ [callback t])) eq_refl)
      as (Hc & Ht & Hq).
    auto.
  - apply Nat.leb_gt in Hd.
    destruct (@waits_armed ws
                (mkWorld (timerId w)
                         (mkHost (now (env w) + d) (fresh (env w)) [t])
                         (calls w)) t eq_refl) as (Hc & Ht & Hq).
    + simpl. lia.
    + simpl in Hc, Ht, Hq. rewrite Nat.add_assoc. auto.
Qed.

(** When the host does not wait for the delay (the time it makes of it is
    no longer than the gaps), every call leads to a run of its own: two
    calls are not merged, and a [cancel] comes after the run. *)
Lemma unwaited_calls_run (a b : A) (g d : nat) (w : world) :
  tidy w ->
  timeout delay <= g ->
  timeout delay <= d ->
  calls (run (burst a [(g, b)]) w) = calls w ++ [a] /\
  calls (run (map (@Wait A) [d]) (run (burst a [(g, b)]) w)) =
    calls w ++ [a; b] /\
  calls (run (Call a :: map (@Wait A) [g] ++ [Cancel A]) w) = calls w ++ [a].
Proof.
  intros Ht Hg Hd.
  assert (Hw : elapse g (trigger a w) =
               mkWorld (Some (fresh (env w)))
                       (mkHost (now (env w) + g) (S (fresh (env w))) [])
                       (calls w ++ [a])).
  { rewrite (trigger_tidy a Ht). erewrite elapse_armed by reflexivity.
    cbn [due env now callback timerId fresh calls].
    now rewrite leb_shift, (proj2 (Nat.leb_le _ _) Hg). }
  assert (Ht1 : tidy (elapse g (trigger a w))).
  { rewrite Hw. intros t []. }
  assert (Hb : run (burst a [(g, b)]) w = trigger b (elapse g (trigger a w)))
    by reflexivity.
  split; [|split].
  - rewrite Hb, (trigger_tidy b Ht1), Hw. reflexivity.
  - rewrite Hb, (trigger_tidy b Ht1), Hw.
    cbn [map Debounce.run fold_left Debounce.step].
    erewrite elapse_armed by reflexivity.
    cbn [due env now callback timerId fresh calls].
    rewrite leb_shift, (proj2 (Nat.leb_le _ _) Hd).
    cbn [calls]. now rewrite <- app_assoc.
  - change (run (Call a :: map (@Wait A) [g] ++ [Cancel A]) w)
      with (cancel_now (elapse g (trigger a w))).
    rewrite (cancel_tidy Ht1), Hw. reflexivity.
Qed.

(** C1, as the code has it.  For a delay up to [TIMEOUT_MAX] (2^31 - 1
    ms), which the host waits for in full, a burst of one or more calls of
    the debounced function, each made less than [delay] after the one
    before, runs the wrapped function exactly once, with the arguments of
    the last call of the burst: nothing has run when the burst ends, and
    from then on the trace of runs grows by that single entry once the waits
    add up to [delay], and by nothing before or after.  This holds after any
    earlier use [past] of the debounced function.  Without any call, the
    wrapped function never runs. *)
Theorem debounce_burst_runs_once
    (t0 id0 : nat) (past : list (op A))
    (a1 : A) (rest : list (nat * A)) (d : nat) (ws : list nat) :
  (Z.of_nat delay <= TIMEOUT_MAX)%Z ->
  Forall (fun ga => fst ga < delay) rest ->
  let before := run past (init A t0 id0) in
  let after_burst := run (burst a1 rest) before in
  calls after_burst = calls before /\
  calls (run (map (@Wait A) (d :: ws)) after_burst) =
    calls before ++
    (if delay <=? total (d :: ws) then [final_args a1 rest] else []) /\
  calls (run (map (@Wait A) ws) (init A t0 id0)) = [].
Proof.
  intros Hfit Hgaps before after_burst.
  pose proof (timeout_in_range delay Hfit) as Hk.
  assert (Htidy : tidy before) by (apply tidy_run, tidy_init).
  assert (Hgaps' : Forall (fun ga : nat * A => fst ga < timeout delay) rest)
    by now rewrite Hk.
  destruct (burst_armed a1 Htidy Hgaps') as [[id [Hid Hp]] Hcalls].
  fold after_burst in Hid, Hp, Hcalls.
  split; [exact Hcalls|]. split.
  - destruct (waits_queued d ws _ Hp) as [Hc _].
    rewrite Hc, Hcalls. cbn [due callback].
    now rewrite leb_shift, Hk.
  - destruct (waits_idle ws (init A t0 id0) eq_refl) as [Hc _].
    exact Hc.
Qed.

(** C7, as the code has it.  For a delay up to [TIMEOUT_MAX] (2^31 - 1
    ms), which the host waits for in full, [cancel] called strictly before
    [delay] has passed since the last call of the debounced function clears
    the queued timer and sets [timerId] back to [null], and the wrapped
    function is never run for that call, however long one waits afterwards.
    With [timerId = null] the call of [cancel] changes nothing at all; with
    no timer queued it changes neither the host nor the trace of runs.
    [cancel] has no failing case: its one call into the host,
    [clearTimeout], takes any handle, so in every state whatsoever [cancel]
    returns, with [timerId = null], no run made, no time passed and no
    timer added. *)
Theorem cancel_before_delay
    (t0 id0 : nat) (past : list (op A)) (a : A) (gs ws : list nat) :
  (Z.of_nat delay <= TIMEOUT_MAX)%Z ->
  total gs < delay ->
  let before := run past (init A t0 id0) in
  let cancelled :=
    run (Call a :: map (@Wait A) gs ++ [Cancel A]) before in
  timerId cancelled = None /\
  pending (env cancelled) = [] /\
  calls (run (map (@Wait A) ws) cancelled) = calls before /\
  (forall w : world, timerId w = None -> cancel_now w = w) /\
  (forall w : world,
      pending (env w) = [] ->
      env (cancel_now w) = env w /\ calls (cancel_now w) = calls w /\
      timerId (cancel_now w) = None) /\
  (forall w : world,
      timerId (cancel_now w) = None /\ calls (cancel_now w) = calls w /\
      now (env (cancel_now w)) = now (env w) /\
      incl (pending (env (cancel_now w))) (pending (env w))).
Proof.
  intros Hfit Hlt before cancelled.
  pose proof (timeout_in_range delay Hfit) as Hk.
  assert (Htidy : tidy before) by (apply tidy_run, tidy_init).
  destruct (trigger_armed a Htidy) as [[id [Hid Hp]] Hc].
  destruct (@waits_armed gs (trigger a before) _ Hp) as (Hc' & Ht' & Hp').
  { cbn [due]. lia. }
  cbn [due callback] in Hc', Hp'. rewrite leb_shift, Hk in Hc', Hp'.
  assert (Hn : (delay <=? total gs) = false) by (apply Nat.leb_gt; lia).
  rewrite Hn in Hc', Hp'. rewrite app_nil_r in Hc'.
  set (waited := run (map (@Wait A) gs) (trigger a before)) in *.
  assert (Hcan : cancelled = cancel_now waited).
  { unfold cancelled, waited.
    change (Call a :: map (@Wait A) gs ++ [Cancel A])
      with ([Call a] ++ map (@Wait A) gs ++ [Cancel A]).
    now rewrite !run_app. }
  assert (Hw : tidy waited).
  { unfold waited. apply tidy_run. apply (tidy_step (Call a)). exact Htidy. }
  rewrite Hcan, (cancel_tidy Hw).
  split; [reflexivity|]. split; [reflexivity|]. split; [|split; [|split]].
  - destruct (waits_idle ws
                (mkWorld None
                         (mkHost (now (env waited)) (fresh (env waited)) [])
                         (calls waited)) eq_refl) as [Hq _].
    rewrite Hq. cbn [calls]. now rewrite Hc', Hc.
  - intros [t h cs] Hnone. simpl in Hnone. subst t. reflexivity.
  - intros [[i|] [n f ts] cs] Hnil; simpl in Hnil; subst ts;
      repeat split; reflexivity.
  - intros [[i|] [n f ts] cs]; unfold cancel_now, cancel, clearTimeout;
      cbn [timerId env calls now pending]; repeat split;
      try apply incl_refl.
    intros t Hin. now apply filter_In in Hin.
Qed.

(** Only [cancel] sets [timerId] to [null]: a call of the debounced function
    leaves a handle in it, and the firing of a timer does not touch it. *)
Lemma only_cancel_resets (w : world) (o : op A) :
  timerId (step w o) = None -> o = Cancel A \/ timerId w = None.
Proof.
  destruct o as [a| |dt]; simpl; intros Hnone.
  - unfold Debounce.trigger, debouncedFunction, setTimeout in Hnone.
    simpl in Hnone. discriminate.
  - now left.
  - right. unfold elapse in Hnone.
    destruct (advance dt (env w)). exact Hnone.
Qed.

(** C10. When the queued timer has fired and the wrapped function has run,
    [timerId] still holds the handle of that timer: it is not [null], and no
    timer with that handle is queued.  [clearTimeout] on it leaves the host
    as it is.  So a [cancel] made now only resets [timerId], and a call of
    the debounced function made now queues exactly one timer, for its own
    arguments; neither removes the run that has happened nor adds one, and
    the new timer leads to one run of its own.  After any further use, a
    call of the debounced function leaves exactly one timer queued.  No
    step other than [cancel] turns a handle in [timerId] into [null].  The
    time a timer waits is what the host makes of [delay]: [delay] itself
    up to [TIMEOUT_MAX]. *)
Theorem handle_kept_after_firing
    (t0 id0 : nat) (past : list (op A)) (a : A) (d : nat) (ws : list nat) :
  timeout delay <= total (d :: ws) ->
  let before := run past (init A t0 id0) in
  let fired := run (Call a :: map (@Wait A) (d :: ws)) before in
  calls fired = calls before ++ [a] /\
  (exists id,
      timerId fired = Some id /\
      timerId (trigger a before) = Some id /\
      pending (env fired) = [] /\
      clearTimeout id (env fired) = env fired) /\
  (timerId (cancel_now fired) = None /\
   env (cancel_now fired) = env fired /\
   calls (cancel_now fired) = calls fired) /\
  (forall b : A,
      armed b (trigger b fired) /\
      calls (trigger b fired) = calls fired /\
      forall d' ws',
        calls (run (map (@Wait A) (d' :: ws')) (trigger b fired)) =
          calls fired ++
          (if timeout delay <=? total (d' :: ws') then [b] else [])) /\
  (forall (later : list (op A)) (b : A),
      List.length (pending (env (trigger b (run later fired)))) = 1) /\
  (forall (w : world) (o : op A),
      timerId (step w o) = None -> o = Cancel A \/ timerId w = None).
Proof.
  intros Hle before fired.
  assert (Htidy : tidy before) by (apply tidy_run, tidy_init).
  destruct (trigger_armed a Htidy) as [[id [Hid Hp]] Hc].
  destruct (waits_queued d ws _ Hp) as (Hc' & Ht' & Hp').
  cbn [due callback] in Hc', Hp'. rewrite leb_shift in Hc', Hp'.
  assert (Hy : (timeout delay <=? total (d :: ws)) = true)
    by (apply Nat.leb_le; lia).
  rewrite Hy in Hc', Hp'.
  change (run (map (@Wait A) (d :: ws)) (trigger a before)) with fired
    in Hc', Ht', Hp'.
  assert (Hf : tidy fired) by (intros t Hin; rewrite Hp' in Hin; destruct Hin).
  split; [now rewrite Hc', Hc|].
  split; [|split; [|split; [|split; [|exact only_cancel_resets]]]].
  - exists id. rewrite Ht'. repeat split; try assumption.
    apply clear_absent. intros t Hin. rewrite Hp' in Hin. destruct Hin.
  - rewrite (cancel_tidy Hf). cbn [timerId env calls].
    repeat split. destruct (env fired) as [n f ts]. simpl in Hp'.
    now subst ts.
  - intros b. destruct (trigger_armed b Hf) as [Harm Hcb].
    split; [exact Harm|]. split; [exact Hcb|]. intros d' ws'.
    destruct Harm as [id' [_ Hpb]].
    destruct (waits_queued d' ws' _ Hpb) as [Hq _].
    rewrite Hq, Hcb. cbn [due callback]. now rewrite leb_shift.
  - intros later b.
    assert (Hl : tidy (run later fired)) by (now apply tidy_run).
    now rewrite (trigger_tidy b Hl).
Qed.


End Instance.

(** A burst of three calls, 100 and 250 apart, with a delay of 400. *)
Lemma debounce_burst_runs_once_witness :
  ((Z.of_nat 400 <= TIMEOUT_MAX)%Z /\
   Forall (fun ga : nat * nat => fst ga < 400) [(100, 20); (250, 30)]) /\
  calls (run 400 (map (@Wait nat) [399; 1; 1000])
           (run 400 (burst 10 [(100, 20); (250, 30)]) (init nat 0 1)))
  = [30].
Proof.
  assert (H0 : (Z.of_nat 400 <= TIMEOUT_MAX)%Z)
    by (unfold TIMEOUT_MAX; lia).
  assert (H : Forall (fun ga : nat * nat => fst ga < 400)
                     [(100, 20); (250, 30)])
    by (repeat constructor; simpl; lia).
  split; [split; [exact H0 | exact H]|].
  exact (proj1 (proj2 (@debounce_burst_runs_once nat 400 0 1 [] 10
                         [(100, 20); (250, 30)] 399 [1; 1000] H0 H))).
Defined.

(** C1, as stated, fails for a delay of 2^31 ms: the host does not wait
    for it.  Of two calls made 50 apart, which is less than the delay, each
    runs the wrapped function: it has run with the arguments of the first
    call when the second is made, and it has run twice in the end. *)
Lemma debounce_burst_counterexample :
  Forall (fun ga : nat * nat => fst ga < Scenario.overlong_delay) [(50, 20)] /\
  calls (run Scenario.overlong_delay (burst 10 [(50, 20)]) (init nat 0 1)) = [10] /\
  calls (run Scenario.overlong_delay (map (@Wait nat) [50])
           (run Scenario.overlong_delay (burst 10 [(50, 20)]) (init nat 0 1)))
  = [10; 20].
Proof.
  assert (H0 : timeout Scenario.overlong_delay <= 50)
    by (unfold Scenario.overlong_delay; rewrite timeout_wraps; lia).
  destruct (@unwaited_calls_run nat Scenario.overlong_delay 10 20 50 50
              (init nat 0 1) (@tidy_init nat 0 1) H0 H0) as (H1 & H2 & _).
  split; [|split; assumption].
  constructor; [|constructor]. cbn [fst]. unfold Scenario.overlong_delay. lia.
Qed.

(** A call, [cancel] 399 later with a delay of 400, then a long wait. *)
Lemma cancel_before_delay_witness :
  ((Z.of_nat 400 <= TIMEOUT_MAX)%Z /\ total [300; 99] < 400) /\
  calls (run 400 (map (@Wait nat) [5000])
           (run 400 (Call 7 :: map (@Wait nat) [300; 99] ++ [Cancel nat])
                (init nat 0 1)))
  = [].
Proof.
  assert (H0 : (Z.of_nat 400 <= TIMEOUT_MAX)%Z)
    by (unfold TIMEOUT_MAX; lia).
  assert (H : total [300; 99] < 400) by (simpl; lia).
  split; [split; [exact H0 | exact H]|].
  exact (proj1 (proj2 (proj2 (@cancel_before_delay nat 400 0 1 [] 7
                                [300; 99] [5000] H0 H)))).
Defined.

(** C7, as stated, fails for a delay of 2^31 ms: the host does not wait
    for it, so a [cancel] made 50 after the call, long before the delay has
    passed, comes after the run of the wrapped function. *)
Lemma cancel_before_delay_counterexample :
  total [50] < Scenario.overlong_delay /\
  calls (run Scenario.overlong_delay
           (Call 7 :: map (@Wait nat) [50] ++ [Cancel nat]) (init nat 0 1))
  = [7].
Proof.
  assert (H0 : timeout Scenario.overlong_delay <= 50)
    by (unfold Scenario.overlong_delay; rewrite timeout_wraps; lia).
  destruct (@unwaited_calls_run nat Scenario.overlong_delay 7 7 50 50
              (init nat 0 1) (@tidy_init nat 0 1) H0 H0) as (_ & _ & H3).
  split; [|exact H3].
  unfold total. cbn [fold_right]. unfold Scenario.overlong_delay. lia.
Qed.

(** A call, a wait of exactly the delay, then a second call. *)
Lemma handle_kept_after_firing_witness :
  timeout 400 <= total [400] /\
  calls (run 400 (Call 7 :: map (@Wait nat) [400]) (init nat 0 1)) = [7].
Proof.
  assert (H : timeout 400 <= total [400]) by (vm_compute; lia).
  split; [exact H|].
  exact (proj1 (@handle_kept_after_firing nat 400 0 1 [] 7 400 [] H)).
Defined.

End DebounceFacts.

(* ================================================================= *)
(** * Properties of the string primitives *)

Module JsStringFacts.
Import JsString.

Lemma eqb_eq (s t : jsstring) : eqb s t = true <-> s = t.
Proof.
  revert t. induction s as [|c s IH]; intros [|d t]; simpl;
    try (split; [discriminate | congruence]).
  - split; reflexivity.
  - rewrite andb_true_iff, Nat.eqb_eq, IH. split.
    + intros [-> ->]. reflexivity.
    + intros [= -> ->]. auto.
Qed.

Lemma eqb_neq (s t : jsstring) : s <> t -> eqb s t = false.
Proof.
  intros Hne. destruct (eqb s t) eqn:He; [|reflexivity].
  apply eqb_eq in He. contradiction.
Qed.

Lemma eqb_refl (s : jsstring) : eqb s s = true.
Proof. now apply eqb_eq. Qed.

Lemma starts_with_length (p s : jsstring) :
  starts_with p s = true -> List.length p <= List.length s.
Proof.
  revert s. induction p as [|c p IH]; intros [|d s]; simpl; intros H;
    try discriminate; try lia.
  apply andb_true_iff in H. destruct H as [_ H]. apply IH in H. lia.
Qed.

(** What [indexOf] returns: [-1] when [search] starts at no position of [s],
    and otherwise the least position at which it starts. *)
Lemma indexOf_from_spec (search s : jsstring) :
  forall k : nat,
    (indexOf_from k s search = (-1)%Z /\
     forall i, i <= List.length s -> starts_with search (skipn i s) = false)
    \/
    (exists j,
        indexOf_from k s search = Z.of_nat (k + j) /\
        j <= List.length s /\
        starts_with search (skipn j s) = true /\
        forall i, i < j -> starts_with search (skipn i s) = false).
Proof.
  induction s as [|c s IH]; intros k; simpl indexOf_from.
  - destruct (starts_with search []) eqn:Hs.
    + right. exists 0. rewrite Nat.add_0_r. simpl.
      repeat split; auto; try lia; intros i Hi; lia.
    + left. split; [reflexivity|]. intros i Hi. now rewrite skipn_nil.
  - destruct (starts_with search (c :: s)) eqn:Hs.
    + right. exists 0. rewrite Nat.add_0_r. simpl.
      repeat split; auto; try lia; intros i Hi; lia.
    + destruct (IH (S k)) as [[Hm Hno]|[j (Hj & Hle & Hat & Hbefore)]].
      * left. split; [exact Hm|]. intros [|i] Hi; simpl; [exact Hs|].
        apply Hno. simpl in Hi. lia.
      * right. exists (S j). rewrite Hj. simpl.
        repeat split; [f_equal; lia | lia | exact Hat |].
        intros [|i] Hi; simpl; [exact Hs|]. apply Hbefore. lia.
Qed.

Lemma substring_of_nat (t : jsstring) (a b : nat) :
  a <= b ->
  substring t (Z.of_nat a) (Z.of_nat b) =
    firstn (Nat.min b (List.length t) - Nat.min a (List.length t))
           (skipn (Nat.min a (List.length t)) t).
Proof.
  intros Hab. unfold substring, len. cbv zeta.
  f_equal; [lia | f_equal; lia].
Qed.

Lemma three_parts (t : jsstring) (a b : nat) :
  a <= b -> firstn a t ++ firstn (b - a) (skipn a t) ++ skipn b t = t.
Proof.
  intros Hab.
  rewrite <- (firstn_skipn a t) at 4. f_equal.
  rewrite <- (firstn_skipn (b - a) (skipn a t)) at 2. f_equal.
  rewrite skipn_skipn. f_equal. lia.
Qed.

Lemma skipn_min (t : jsstring) (b : nat) :
  skipn b t = skipn (Nat.min b (List.length t)) t.
Proof.
  destruct (Nat.le_gt_cases b (List.length t)) as [Hb|Hb].
  - now rewrite Nat.min_l.
  - rewrite Nat.min_r by lia. now rewrite !skipn_all2 by lia.
Qed.

Lemma substring_from_of_nat (t : jsstring) (b : nat) :
  substring_from t (Z.of_nat b) = skipn b t.
Proof.
  unfold substring_from, substring, len. cbv zeta.
  destruct (Nat.le_gt_cases b (List.length t)) as [Hb|Hb].
  - replace (Z.to_nat _) with (List.length t - b) by lia.
    replace (Z.to_nat _) with b by lia.
    apply firstn_all2. rewrite length_skipn. lia.
  - replace (Z.to_nat _) with 0 by lia. simpl.
    now rewrite skipn_all2 by lia.
Qed.

(** The three [substring] calls of [highlightMatch] cut the text into three
    consecutive pieces, whatever the two indices are. *)
Lemma substring_split (t : jsstring) (a b : nat) :
  a <= b ->
  substring t 0 (Z.of_nat a) ++
  substring t (Z.of_nat a) (Z.of_nat b) ++
  substring_from t (Z.of_nat b) = t.
Proof.
  intros Hab.
  change 0%Z with (Z.of_nat 0).
  rewrite (@substring_of_nat t 0 a) by lia.
  rewrite (@substring_of_nat t a b) by lia.
  rewrite substring_from_of_nat, (skipn_min t b).
  rewrite Nat.min_0_l, Nat.sub_0_r. simpl skipn.
  apply three_parts. lia.
Qed.

Lemma toLowerCase_nil : toLowerCase [] = [].
Proof. reflexivity. Qed.

End JsStringFacts.

(* ================================================================= *)
(** * Properties of [highlightMatch] *)

Module HighlightFacts.
Import JsString Highlight JsStringFacts.

Section WithLowerCase.

Variable lower : jsstring -> jsstring.

Abbreviation highlightMatch := (highlightMatch lower).

(** The two shapes of the result, by what [indexOf] finds. *)
Lemma highlightMatch_cases (text query : jsstring) :
  (highlightMatch text query = Plain text /\
   forall i, i <= List.length (lower text) ->
             starts_with (lower query) (skipn i (lower text)) = false)
  \/
  (exists j,
      highlightMatch text query =
        Fragment [ Text (substring text 0 (Z.of_nat j));
                   Strong (substring text (Z.of_nat j)
                                     (Z.of_nat (j + List.length query)));
                   Text (substring_from text
                                        (Z.of_nat (j + List.length query))) ]
      /\ starts_with (lower query) (skipn j (lower text)) = true
      /\ j <= List.length (lower text)
      /\ forall i, i < j ->
                   starts_with (lower query) (skipn i (lower text)) = false).
Proof.
  unfold highlightMatch, Highlight.highlightMatch, indexOf.
  destruct (indexOf_from_spec (lower query) (lower text) 0)
    as [[Hm Hno]|[j (Hj & Hle & Hat & Hbefore)]].
  - left. rewrite Hm. simpl. auto.
  - right. exists j. rewrite Hj. simpl Nat.add.
    replace (Z.of_nat j =? -1)%Z with false by (symmetry; apply Z.eqb_neq; lia).
    unfold len. rewrite <- Nat2Z.inj_add. auto.
Qed.

(** Emphasis or not, the characters shown are those of the text. *)
Lemma highlightMatch_shown (text query : jsstring) :
  shown (highlightMatch text query) = text.
Proof.
  destruct (highlightMatch_cases text query) as [[-> _]|[j [-> _]]].
  - reflexivity.
  - simpl. rewrite app_nil_r. apply substring_split. lia.
Qed.

(** When lower-casing changes the length of neither string, a match is
    emphasized over exactly the length of the query, at the first position
    where the lower-cased query occurs in the lower-cased text. *)
Lemma highlightMatch_segment (text query : jsstring) (j : nat) :
  List.length (lower text) = List.length text ->
  List.length (lower query) = List.length query ->
  starts_with (lower query) (skipn j (lower text)) = true ->
  (forall i, i < j ->
             starts_with (lower query) (skipn i (lower text)) = false) ->
  j <= List.length (lower text) ->
  exists before seg after,
    highlightMatch text query = Fragment [Text before; Strong seg; Text after]
    /\ before ++ seg ++ after = text
    /\ List.length before = j
    /\ List.length seg = List.length query.
Proof.
  intros Ht Hq Hat Hbefore Hle.
  destruct (highlightMatch_cases text query)
    as [[_ Hno]|[k (Heq & Hk & Hkle & Hkb)]].
  - rewrite (Hno j Hle) in Hat. discriminate.
  - assert (k = j).
    { destruct (Nat.lt_trichotomy k j) as [Hlt|[Heq'|Hgt]]; [|exact Heq'|].
      - rewrite (Hbefore k Hlt) in Hk. discriminate.
      - rewrite (Hkb j Hgt) in Hat. discriminate. }
    subst k. apply starts_with_length in Hat.
    rewrite length_skipn in Hat.
    eexists _, _, _. split; [exact Heq|]. split; [|split].
    + apply substring_split. lia.
    + change 0%Z with (Z.of_nat 0).
      rewrite substring_of_nat, length_firstn, length_skipn by lia. lia.
    + rewrite substring_of_nat, length_firstn, length_skipn by lia. lia.
Qed.

(** The empty query is found at position 0 of every text: the result is a
    fragment with nothing emphasized in front of the whole text. *)
Lemma highlightMatch_empty_query (text : jsstring) :
  lower [] = [] ->
  highlightMatch text [] = Fragment [Text []; Strong []; Text text].
Proof.
  intros Hnil. unfold highlightMatch, Highlight.highlightMatch, indexOf.
  rewrite Hnil.
  assert (H0 : indexOf_from 0 (lower text) [] = 0%Z)
    by (destruct (lower text); reflexivity).
  rewrite H0. simpl Z.eqb. cbv iota. unfold len. simpl List.length.
  change (0 + Z.of_nat 0)%Z with (Z.of_nat 0). change 0%Z with (Z.of_nat 0).
  rewrite substring_of_nat by lia.
  rewrite substring_from_of_nat. simpl. reflexivity.
Qed.

(** C8. With a [toLowerCase] that maps "Apple" to "apple" and leaves "ap"
    and "xyz" as they are, [highlightMatch("Apple", "ap")] puts "Ap", in its
    original casing, in [<strong>] and leaves "ple" outside of it, and
    [highlightMatch("Apple", "xyz")] returns the text as it is. *)
Theorem highlight_apple :
  lower (js "Apple") = js "apple" ->
  lower (js "ap") = js "ap" ->
  lower (js "xyz") = js "xyz" ->
  highlightMatch (js "Apple") (js "ap") =
    Fragment [Text []; Strong (js "Ap"); Text (js "ple")] /\
  highlightMatch (js "Apple") (js "xyz") = Plain (js "Apple").
Proof.
  intros Happle Hap Hxyz.
  unfold highlightMatch, Highlight.highlightMatch.
  rewrite Happle, Hap, Hxyz. split; reflexivity.
Qed.

End WithLowerCase.

Lemma highlight_apple_witness :
  (toLowerCase (js "Apple") = js "apple" /\
   toLowerCase (js "ap") = js "ap" /\
   toLowerCase (js "xyz") = js "xyz") /\
  highlightMatch toLowerCase (js "Apple") (js "ap") =
    Fragment [Text []; Strong (js "Ap"); Text (js "ple")] /\
  highlightMatch toLowerCase (js "Apple") (js "xyz") = Plain (js "Apple").
Proof.
  split; [repeat split|].
  exact (@highlight_apple toLowerCase eq_refl eq_refl eq_refl).
Defined.

(** C9. The text U+0130 U+0061 (capital I with dot above, then "a")
    contains the query "a", but its lower
    case is one unit longer than the text, the match is found at position 2
    of the lower-cased text, and [substring(2, 3)] of the two-unit text is
    empty: the emphasized segment has length 0, not the length of the query,
    and the occurrence of "a" is shown unemphasized. *)
Theorem highlight_dotted_capital_I :
  toLowerCase [304; 97] = [105; 775; 97] /\
  indexOf (toLowerCase [304; 97]) (toLowerCase [97]) = 2%Z /\
  highlightMatch toLowerCase [304; 97] [97] =
    Fragment [Text [304; 97]; Strong []; Text []] /\
  emphasized (highlightMatch toLowerCase [304; 97] [97]) = [[]].
Proof. repeat split. Qed.

End HighlightFacts.

(* ================================================================= *)
(** * Properties of [useFetchOnQueryChange] *)

Module HookFacts.
Import Timer JsString Hook TimerFacts JsStringFacts.

Section Controller.

Variable T : Type.
Variable E : Type.
Variable delay : nat.

Abbreviation state := (state T E).
Abbreviation event := (event T E).
Abbreviation step := (@step T E delay).
Abbreviation run := (@run T E delay).
Abbreviation render := (@render T E delay).
Abbreviation mount := (mount T E delay).
Abbreviation reachable := (@reachable T E delay).
Abbreviation waits := (map (@Wait T E)).

(** *** The action *)

Lemma fetch_action_frame (q : jsstring) (s : state) :
  env (fetch_action q s) = env s /\
  timerId (fetch_action q s) = timerId s /\
  query (fetch_action q s) = query s /\
  uncaught (fetch_action q s) = uncaught s.
Proof.
  unfold fetch_action. destruct (eqb q []); repeat split.
Qed.

Lemma fetch_action_traces (q : jsstring) (s : state) :
  entered (fetch_action q s) = entered s ++ [q] /\
  fetched (fetch_action q s) =
    fetched s ++ (if eqb q [] then [] else [q]) /\
  inflight (fetch_action q s) =
    inflight s ++ (if eqb q [] then [] else [List.length (fetched s)]).
Proof.
  unfold fetch_action. destruct (eqb q []); simpl;
    rewrite ?app_nil_r; repeat split.
Qed.

Lemma fetch_action_vis (q : jsstring) (s : state) :
  vis (fetch_action q s) =
    mkVisible None (negb (eqb q [])) false (error (vis s)).
Proof.
  unfold fetch_action. destruct (eqb q []); reflexivity.
Qed.

(** *** Waiting *)

Lemma hook_elapse_idle (dt : nat) (s : state) :
  pending (env s) = [] ->
  elapse dt s = with_env (mkHost (now (env s) + dt) (fresh (env s)) []) s.
Proof.
  intros Hp. unfold elapse. now rewrite (advance_idle dt _ Hp).
Qed.

Lemma hook_elapse_armed (dt : nat) (s : state) (t : timer jsstring) :
  pending (env s) = [t] ->
  elapse dt s =
    if due t <=? now (env s) + dt
    then fetch_action (callback t)
           (with_env (mkHost (now (env s) + dt) (fresh (env s)) []) s)
    else with_env (mkHost (now (env s) + dt) (fresh (env s)) [t]) s.
Proof.
  intros Hp. unfold elapse. rewrite (advance_one dt _ Hp).
  destruct (due t <=? now (env s) + dt); reflexivity.
Qed.

Lemma actions_frame (ran : list jsstring) :
  forall s : state,
    env (fold_left (fun s q => fetch_action q s) ran s) = env s /\
    timerId (fold_left (fun s q => fetch_action q s) ran s) = timerId s /\
    query (fold_left (fun s q => fetch_action q s) ran s) = query s.
Proof.
  induction ran as [|q ran IH]; intros s; simpl; [auto|].
  destruct (IH (fetch_action q s)) as (He & Ht & Hq).
  destruct (fetch_action_frame q s) as (He' & Ht' & Hq' & _).
  rewrite He, Ht, Hq. auto.
Qed.

(** Whatever ran during a wait, the visible state is either untouched or
    has [data] and [loaded] reset; no request is dropped. *)
Lemma actions_vis (ran : list jsstring) :
  forall s : state,
    let s' := fold_left (fun s q => fetch_action q s) ran s in
    (vis s' = vis s /\ inflight s' = inflight s \/
     data (vis s') = None /\ loaded (vis s') = false) /\
    (forall i, In i (inflight s) -> In i (inflight s')) /\
    uncaught s' = uncaught s.
Proof.
  induction ran as [|q ran IH]; intros s; simpl.
  - auto.
  - destruct (IH (fetch_action q s)) as (Hv & Hin & Hu).
    destruct (fetch_action_traces q s) as (_ & _ & Hi).
    destruct (fetch_action_frame q s) as (_ & _ & _ & Hu').
    split; [|split].
    + right. destruct Hv as [[Hv _]|Hv]; [|exact Hv].
      rewrite Hv, fetch_action_vis. auto.
    + intros i Hi'. apply Hin. rewrite Hi. apply in_or_app. now left.
    + now rewrite Hu.
Qed.

Lemma elapse_frame (dt : nat) (s : state) :
  timerId (elapse dt s) = timerId s /\
  (forall t, In t (pending (env (elapse dt s))) -> In t (pending (env s))) /\
  query (elapse dt s) = query s.
Proof.
  unfold elapse, advance.
  destruct (partition _ (pending (env s))) as [ready rest] eqn:Hpart.
  match goal with
  | |- context [fold_left _ ?ran ?s0] =>
      destruct (actions_frame ran s0) as (He & Ht & Hq)
  end.
  rewrite He, Ht, Hq. repeat split.
  simpl. intros t Hin. apply (elements_in_partition _ _ Hpart). now right.
Qed.

(** *** Rendering *)

Lemma mount_state (q : jsstring) (t0 id0 : nat) :
  mount q t0 id0 =
    mkState (mkVisible None false false None) q (Some id0)
            (mkHost t0 (S id0) [mkTimer id0 (t0 + timeout delay) q])
            [] [] [] [].
Proof. reflexivity. Qed.

Lemma render_same (s : state) : render (query s) s = s.
Proof. unfold render, Hook.render. now rewrite eqb_refl. Qed.

Lemma render_new (q : jsstring) (s : state) :
  tidy s ->
  q <> query s ->
  render q s =
    mkState (vis s) q (Some (fresh (env s)))
            (mkHost (now (env s)) (S (fresh (env s)))
                    [mkTimer (fresh (env s)) (now (env s) + timeout delay) q])
            (inflight s) (fetched s) (entered s) (uncaught s).
Proof.
  intros Ht Hne. unfold render, Hook.render. rewrite (eqb_neq Hne).
  unfold cleanup, Debounce.cancel, effect, Debounce.debouncedFunction.
  destruct s as [v q0 [id|] [n f ts] infl fs en un]; unfold tidy in Ht;
    simpl in *.
  - unfold setTimeout. simpl. rewrite clear_own; [reflexivity|].
    intros t Hin. specialize (Ht t Hin). congruence.
  - destruct ts as [|t ts]; [reflexivity|].
    specialize (Ht t (or_introl eq_refl)). discriminate.
Qed.

Lemma settle_frame (i : nat) (o : outcome T E) (s : state) :
  env (settle i o s) = env s /\ timerId (settle i o s) = timerId s /\
  query (settle i o s) = query s /\ fetched (settle i o s) = fetched s /\
  entered (settle i o s) = entered s.
Proof.
  unfold settle. destruct (awaited i s); [|repeat split].
  destruct o; repeat split.
Qed.

Lemma tidy_mount (q : jsstring) (t0 id0 : nat) : tidy (mount q t0 id0).
Proof. rewrite mount_state. intros t [<-|[]]. reflexivity. Qed.

Lemma hook_tidy_step (s : state) (ev : event) : tidy s -> tidy (step s ev).
Proof.
  intros Ht. destruct ev as [q|dt|i o]; simpl.
  - unfold Hook.render. destruct (eqb q (query s)) eqn:Hq; [exact Ht|].
    assert (Hne : q <> query s).
    { intros ->. now rewrite eqb_refl in Hq. }
    generalize (render_new Ht Hne). unfold render, Hook.render.
    rewrite Hq. intros ->. intros t [<-|[]]. reflexivity.
  - destruct (elapse_frame dt s) as (Hid & Hsub & _).
    intros t Hin. rewrite Hid. apply Ht, Hsub, Hin.
  - destruct (settle_frame i o s) as (He & Hid & _).
    intros t Hin. rewrite He in Hin. rewrite Hid. now apply Ht.
Qed.

Lemma reachable_tidy (s : state) : reachable s -> tidy s.
Proof.
  induction 1 as [q t0 id0|s ev _ IH].
  - apply tidy_mount.
  - now apply hook_tidy_step.
Qed.

Lemma hook_run_app (evs1 evs2 : list event) (s : state) :
  run (evs1 ++ evs2) s = run evs2 (run evs1 s).
Proof. apply fold_left_app. Qed.

Lemma reachable_run (evs : list event) (s : state) :
  reachable s -> reachable (run evs s).
Proof.
  revert s. induction evs as [|ev evs IH]; intros s Hr; simpl; [exact Hr|].
  apply IH. now constructor.
Qed.

Lemma hook_single_timer_tidy (s : state) : single_timer s -> tidy s.
Proof.
  intros [Hnil|(id & d & Hid & Hp)] u Hin; rewrite ?Hnil, ?Hp in Hin.
  - destruct Hin.
  - destruct Hin as [<-|[]]. exact Hid.
Qed.

Lemma hook_single_timer_step (s : state) (ev : event) :
  single_timer s -> single_timer (step s ev).
Proof.
  intros Hs. pose proof (hook_single_timer_tidy Hs) as Ht.
  destruct ev as [q|dt|i o]; simpl.
  - unfold Hook.render. destruct (eqb q (query s)) eqn:Hq; [exact Hs|].
    assert (Hne : q <> query s).
    { intros ->. now rewrite eqb_refl in Hq. }
    generalize (render_new Ht Hne). unfold render, Hook.render.
    rewrite Hq. intros ->. right.
    exists (fresh (env s)), (now (env s) + timeout delay).
    split; reflexivity.
  - destruct Hs as [Hnil|(id & d & Hid & Hp)].
    + rewrite (hook_elapse_idle dt _ Hnil). now left.
    + rewrite (hook_elapse_armed dt _ Hp).
      destruct (due _ <=? now (env s) + dt).
      * left.
        match goal with
        | |- pending (env (fetch_action ?q ?s0)) = [] =>
            destruct (fetch_action_frame q s0) as (He & _); now rewrite He
        end.
      * right. exists id, d. split; [exact Hid | reflexivity].
  - destruct (settle_frame i o s) as (He & Hid & Hq & _).
    unfold single_timer. rewrite He, Hid, Hq. exact Hs.
Qed.

(** At most one fetch is armed to fire at any time, and it is the one for
    the current query. *)
Lemma reachable_single_timer (s : state) : reachable s -> single_timer s.
Proof.
  induction 1 as [q t0 id0|s ev _ IH].
  - rewrite mount_state. right. exists id0, (t0 + timeout delay).
    split; reflexivity.
  - now apply hook_single_timer_step.
Qed.

(** So an action that runs during a wait is the one of the current query. *)
Lemma wait_enters_current (s : state) (dt : nat) :
  reachable s ->
  entered (step s (Wait T E dt)) = entered s \/
  entered (step s (Wait T E dt)) = entered s ++ [query s].
Proof.
  intros Hr. simpl.
  destruct (reachable_single_timer Hr) as [Hnil|(id & d & Hid & Hp)].
  - rewrite (hook_elapse_idle dt _ Hnil). now left.
  - rewrite (hook_elapse_armed dt _ Hp).
    destruct (due _ <=? now (env s) + dt); [right|now left].
    cbn [callback].
    match goal with
    | |- entered (fetch_action ?q ?s0) = _ =>
        destruct (fetch_action_traces q s0) as (Hen & _); now rewrite Hen
    end.
Qed.

(** C3. Whatever the visible state before, the action of an effect whose
    [query] is the empty string sets [loaded] to [false], [data] to [null]
    and [loading] to [false], leaves [error] as it was, and returns without
    a call of [fetchData]: the trace of calls and the awaited promises are
    unchanged.  So a hook mounted with the empty query is, once the delay
    has passed, in the state data = null, loading = false, loaded = false,
    with no call made. *)
Theorem empty_query_resets (s : state) :
  let s' := fetch_action [] s in
  (loaded (vis s') = false /\ data (vis s') = None /\
   loading (vis s') = false /\ error (vis s') = error (vis s)) /\
  (fetched s' = fetched s /\ inflight s' = inflight s) /\
  (forall t0 id0 : nat,
      let idle := step (mount [] t0 id0) (Wait T E delay) in
      vis idle = mkVisible None false false None /\
      fetched idle = [] /\ entered idle = [[]]).
Proof.
  split; [repeat split|]. split; [repeat split|].
  intros t0 id0 idle. unfold idle. simpl Hook.step.
  rewrite mount_state.
  erewrite hook_elapse_armed by reflexivity.
  cbn [due env now].
  rewrite leb_shift, (proj2 (Nat.leb_le _ _) (timeout_le delay)).
  repeat split.
Qed.

(** *** Series of waits *)

Lemma hook_waits_idle (ws : list nat) :
  forall s : state,
    pending (env s) = [] ->
    entered (run (waits ws) s) = entered s /\
    fetched (run (waits ws) s) = fetched s /\
    vis (run (waits ws) s) = vis s.
Proof.
  induction ws as [|d ws IH]; intros s Hp; simpl; [auto|].
  rewrite (hook_elapse_idle d _ Hp).
  apply (IH (with_env (mkHost (now (env s) + d) (fresh (env s)) []) s)).
  reflexivity.
Qed.

Lemma waits_after_firing (d : nat) (ws : list nat) (s : state)
      (t : timer jsstring) :
  pending (env s) = [t] ->
  ran_once true (callback t) s
    (run (waits ws)
       (fetch_action (callback t)
          (with_env (mkHost (now (env s) + d) (fresh (env s)) []) s))).
Proof.
  intros Hp.
  set (s0 := with_env (mkHost (now (env s) + d) (fresh (env s)) []) s).
  destruct (fetch_action_frame (callback t) s0) as (He & _).
  destruct (fetch_action_traces (callback t) s0) as (Hen & Hfe & _).
  destruct (hook_waits_idle ws (fetch_action (callback t) s0)) as (Hen' & Hfe' & _).
  { now rewrite He. }
  split; [now rewrite Hen', Hen | now rewrite Hfe', Hfe].
Qed.

Lemma hook_waits_armed (ws : list nat) :
  forall (s : state) (t : timer jsstring),
    pending (env s) = [t] ->
    now (env s) < due t ->
    ran_once (due t <=? now (env s) + total ws) (callback t) s
             (run (waits ws) s).
Proof.
  induction ws as [|d ws IH]; intros s t Hp Hlt.
  - simpl. rewrite Nat.add_0_r.
    assert (Hn : (due t <=? now (env s)) = false) by (apply Nat.leb_gt; lia).
    rewrite Hn. split; now rewrite app_nil_r.
  - simpl. rewrite (hook_elapse_armed d _ Hp).
    destruct (due t <=? now (env s) + d) eqn:Hd.
    + apply Nat.leb_le in Hd.
      assert (Hy : (due t <=? now (env s) + (d + total ws)) = true)
        by (apply Nat.leb_le; lia).
      rewrite Hy. now apply waits_after_firing.
    + apply Nat.leb_gt in Hd. rewrite Nat.add_assoc.
      apply (IH (with_env (mkHost (now (env s) + d) (fresh (env s)) [t]) s) t
                eq_refl).
      simpl. lia.
Qed.

Lemma hook_waits_queued (d : nat) (ws : list nat) (s : state)
      (t : timer jsstring) :
  pending (env s) = [t] ->
  ran_once (due t <=? now (env s) + total (d :: ws)) (callback t) s
           (run (waits (d :: ws)) s).
Proof.
  intros Hp. simpl. rewrite (hook_elapse_armed d _ Hp).
  destruct (due t <=? now (env s) + d) eqn:Hd.
  - apply Nat.leb_le in Hd.
    assert (Hy : (due t <=? now (env s) + (d + total ws)) = true)
      by (apply Nat.leb_le; lia).
    rewrite Hy. now apply waits_after_firing.
  - apply Nat.leb_gt in Hd. rewrite Nat.add_assoc.
    apply (@hook_waits_armed ws
             (with_env (mkHost (now (env s) + d) (fresh (env s)) [t]) s) t
             eq_refl).
    simpl. lia.
Qed.

(** *** Query changes *)

(** Right after a change to [q], the timer of [q] is the only one queued. *)
Lemma just_changed_armed (q : jsstring) (s : state) :
  just_changed delay q s ->
  query s = q /\
  exists id,
    timerId s = Some id /\
    pending (env s) = [mkTimer id (now (env s) + timeout delay) q].
Proof.
  intros [t0 id0|s0 Hr Hne].
  - rewrite mount_state. split; [reflexivity|]. now exists id0.
  - fold (render q s0).
    rewrite (render_new (reachable_tidy Hr) Hne). split; [reflexivity|].
    now exists (fresh (env s0)).
Qed.

(** When the host does not wait for the delay, the action of [q1] has run
    by the time the query changes to [q2], and both queries are fetched. *)
Lemma unwaited_queries_fetched
    (q1 q2 : jsstring) (s1 : state) (g d : nat) :
  just_changed delay q1 s1 ->
  q1 <> [] -> q2 <> [] -> q2 <> q1 ->
  timeout delay <= g ->
  timeout delay <= d ->
  let s3 := run [Wait T E g; Render T E q2; Wait T E d] s1 in
  entered s3 = entered s1 ++ [q1; q2] /\
  fetched s3 = fetched s1 ++ [q1; q2].
Proof.
  intros Hch Hn1 Hn2 Hne Hg Hd s3.
  destruct (just_changed_armed Hch) as (Hq & id1 & Hid & Hp).
  assert (Hr1 : reachable s1).
  { destruct Hch as [t0 id0|s0 Hr0 Hne0]; [constructor|].
    apply (reach_step (Render T E q1) Hr0). }
  set (s1' := step s1 (Wait T E g)).
  assert (Hr1' : reachable s1') by now constructor.
  assert (Hw : s1' =
               fetch_action q1
                 (with_env (mkHost (now (env s1) + g) (fresh (env s1)) []) s1)).
  { unfold s1'. simpl. rewrite (hook_elapse_armed g _ Hp). cbn [due callback].
    now rewrite leb_shift, (proj2 (Nat.leb_le _ _) Hg). }
  destruct (fetch_action_traces q1
              (with_env (mkHost (now (env s1) + g) (fresh (env s1)) []) s1))
    as (Hen1 & Hfe1 & _).
  destruct (fetch_action_frame q1
              (with_env (mkHost (now (env s1) + g) (fresh (env s1)) []) s1))
    as (He1 & _ & Hq1 & _).
  rewrite <- Hw in Hen1, Hfe1, He1, Hq1.
  cbn [entered fetched query env with_env] in Hen1, Hfe1, He1, Hq1.
  rewrite (eqb_neq Hn1) in Hfe1.
  assert (Hne' : q2 <> query s1') by (rewrite Hq1, Hq; exact Hne).
  set (s2 := step s1' (Render T E q2)).
  assert (Hs2 : s2 =
    mkState (vis s1') q2 (Some (fresh (env s1')))
            (mkHost (now (env s1')) (S (fresh (env s1')))
                    [mkTimer (fresh (env s1')) (now (env s1') + timeout delay)
                             q2])
            (inflight s1') (fetched s1') (entered s1') (uncaught s1')).
  { unfold s2. cbn [Hook.step]. fold (render q2 s1').
    apply (render_new (reachable_tidy Hr1') Hne'). }
  change s3 with (step s2 (Wait T E d)). simpl.
  erewrite hook_elapse_armed by (rewrite Hs2; reflexivity).
  rewrite Hs2. cbn [due env now callback].
  rewrite leb_shift, (proj2 (Nat.leb_le _ _) Hd).
  match goal with
  | |- context [fetch_action q2 ?s0] =>
      destruct (fetch_action_traces q2 s0) as (Hen2 & Hfe2 & _)
  end.
  rewrite Hen2, Hfe2, (eqb_neq Hn2). cbn [entered fetched with_env].
  rewrite Hen1, Hfe1, <- !app_assoc. split; reflexivity.
Qed.

(** C2, as the code has it.  For a delay up to [TIMEOUT_MAX] (2^31 - 1
    ms), which the host waits for in full: when the query string changes to
    [q1] and then, less than [delay] later, to [q2], the timer of [q1] is
    still queued when the second change arrives, the cleanup of the first
    effect removes it, and only the timer of [q2] is queued afterwards.
    The action of [q1] is never entered.  From the second change on, the
    traces of entered actions and of [fetchData] calls grow by the one entry
    for [q2] once the waits add up to [delay] (no call when [q2] is empty),
    and by nothing else. *)
Theorem superseded_cycle_never_runs
    (q1 q2 : jsstring) (s1 : state) (g d : nat) (ws : list nat) :
  (Z.of_nat delay <= TIMEOUT_MAX)%Z ->
  just_changed delay q1 s1 ->
  q2 <> q1 ->
  g < delay ->
  let s2 := run [Wait T E g; Render T E q2] s1 in
  let s3 := run (waits (d :: ws)) s2 in
  (exists id1,
      pending (env (step s1 (Wait T E g))) =
        [mkTimer id1 (now (env s1) + delay) q1]) /\
  (exists id2,
      timerId s2 = Some id2 /\
      pending (env s2) = [mkTimer id2 (now (env s2) + delay) q2]) /\
  (entered s2 = entered s1 /\ fetched s2 = fetched s1) /\
  entered s3 =
    entered s1 ++ (if delay <=? total (d :: ws) then [q2] else []) /\
  fetched s3 =
    fetched s1 ++
    (if delay <=? total (d :: ws)
     then (if eqb q2 [] then [] else [q2]) else []).
Proof.
  intros Hfit Hch Hne Hg s2 s3.
  destruct (just_changed_armed Hch) as (Hq & id1 & Hid & Hp).
  rewrite (timeout_in_range delay Hfit) in Hp.
  assert (Hw : step s1 (Wait T E g) =
               with_env (mkHost (now (env s1) + g) (fresh (env s1))
                                [mkTimer id1 (now (env s1) + delay) q1]) s1).
  { simpl. rewrite (hook_elapse_armed g _ Hp). cbn [due].
    now rewrite leb_shift, (proj2 (Nat.leb_gt delay g) Hg). }
  assert (Hs2 : s2 =
    mkState (vis s1) q2 (Some (fresh (env s1)))
            (mkHost (now (env s1) + g) (S (fresh (env s1)))
                    [mkTimer (fresh (env s1)) (now (env s1) + g + delay) q2])
            (inflight s1) (fetched s1) (entered s1) (uncaught s1)).
  { unfold s2, run, Hook.run. cbn [fold_left]. fold step. rewrite Hw.
    cbn [Hook.step]. fold (render q2).
    rewrite render_new.
    - now rewrite (timeout_in_range delay Hfit).
    - intros t [<-|[]]. exact Hid.
    - cbn [query with_env]. congruence. }
  split; [exists id1; now rewrite Hw|].
  split; [exists (fresh (env s1)); now rewrite Hs2|].
  split; [now rewrite Hs2|].
  destruct (@hook_waits_queued d ws s2
              (mkTimer (fresh (env s1)) (now (env s1) + g + delay) q2))
    as [Hen Hfe].
  { now rewrite Hs2. }
  fold s3 in Hen, Hfe. cbn [due callback] in Hen, Hfe.
  replace (now (env s2)) with (now (env s1) + g) in Hen, Hfe
    by now rewrite Hs2.
  rewrite leb_shift in Hen, Hfe.
  rewrite Hen, Hfe, Hs2. auto.
Qed.

(** *** Settling *)

Lemma awaited_In (i : nat) (s : state) :
  awaited i s = true <-> In i (inflight s).
Proof.
  unfold awaited. rewrite existsb_exists. split.
  - intros [j [Hin Heq]]. apply Nat.eqb_eq in Heq. now subst.
  - intros Hin. exists i. split; [exact Hin | apply Nat.eqb_refl].
Qed.

Lemma render_frame (q : jsstring) (s : state) :
  vis (render q s) = vis s /\ inflight (render q s) = inflight s /\
  uncaught (render q s) = uncaught s.
Proof.
  unfold render, Hook.render. destruct (eqb q (query s)); [repeat split|].
  unfold effect, cleanup, Debounce.debouncedFunction, Debounce.cancel,
    setTimeout.
  destruct (timerId s); repeat split.
Qed.

Lemma elapse_vis (dt : nat) (s : state) :
  (vis (elapse dt s) = vis s /\ inflight (elapse dt s) = inflight s \/
   data (vis (elapse dt s)) = None /\ loaded (vis (elapse dt s)) = false) /\
  (forall i, In i (inflight s) -> In i (inflight (elapse dt s))) /\
  uncaught (elapse dt s) = uncaught s.
Proof.
  unfold elapse. destruct (advance dt (env s)) as [ran h].
  apply (actions_vis ran (with_env h s)).
Qed.

(** The [try]/[catch]/[finally] never completes by throwing. *)
Lemma resume_normal (o : outcome T E) (s : state) : snd (resume o s) = None.
Proof. destruct o; reflexivity. Qed.

Lemma settle_fulfilled (i : nat) (r : T) (s : state) :
  awaited i s = true ->
  vis (settle i (Fulfilled E r) s) = mkVisible (Some r) false true None /\
  uncaught (settle i (Fulfilled E r) s) = uncaught s.
Proof. intros Ha. unfold settle. rewrite Ha. split; reflexivity. Qed.

Lemma settle_rejected (i : nat) (e : E) (s : state) :
  awaited i s = true ->
  vis (settle i (Rejected T e) s) =
    mkVisible (data (vis s)) false true (Some e) /\
  uncaught (settle i (Rejected T e) s) = uncaught s.
Proof. intros Ha. unfold settle. rewrite Ha. split; reflexivity. Qed.

Lemma settle_inflight (j : nat) (o : outcome T E) (s : state) (i : nat) :
  j <> i -> In i (inflight s) -> In i (inflight (settle j o s)).
Proof.
  intros Hne Hin. unfold settle. destruct (awaited j s); [|exact Hin].
  assert (Hf : In i (filter (fun k => negb (k =? j)) (inflight s))).
  { apply filter_In. split; [exact Hin|].
    apply negb_true_iff, Nat.eqb_neq. congruence. }
  destruct o; exact Hf.
Qed.

Lemma settle_uncaught (i : nat) (o : outcome T E) (s : state) :
  uncaught (settle i o s) = uncaught s.
Proof. unfold settle. destruct (awaited i s), o; reflexivity. Qed.

(** No step lets an error escape. *)
Lemma step_uncaught (s : state) (ev : event) :
  uncaught (step s ev) = uncaught s.
Proof.
  destruct ev as [q|dt|i o]; simpl.
  - apply render_frame.
  - apply elapse_vis.
  - apply settle_uncaught.
Qed.

Lemma run_uncaught (evs : list event) :
  forall s : state, uncaught (run evs s) = uncaught s.
Proof.
  induction evs as [|ev evs IH]; intros s; simpl; [reflexivity|].
  fold (run evs (step s ev)). rewrite IH. apply step_uncaught.
Qed.

Lemma awaited_step (i : nat) (s : state) (ev : event) :
  leaves_pending i ev -> awaited i s = true -> awaited i (step s ev) = true.
Proof.
  rewrite !awaited_In. destruct ev as [q|dt|j o]; simpl; intros Hev Hin.
  - destruct (render_frame q s) as (_ & -> & _). exact Hin.
  - now apply elapse_vis.
  - now apply settle_inflight.
Qed.

Lemma awaited_run (i : nat) (evs : list event) :
  forall s : state,
    Forall (leaves_pending i) evs ->
    awaited i s = true -> awaited i (run evs s) = true.
Proof.
  induction evs as [|ev evs IH]; intros s Hall Ha; simpl; [exact Ha|].
  inversion Hall; subst. apply IH; [assumption|]. now apply awaited_step.
Qed.

Lemma data_none_step (s : state) (ev : event) :
  resolves_nothing ev ->
  data (vis s) = None -> data (vis (step s ev)) = None.
Proof.
  destruct ev as [q|dt|j o]; simpl; intros Hev Hd.
  - destruct (render_frame q s) as (-> & _). exact Hd.
  - destruct (elapse_vis dt s) as ([[-> _]|[Hn _]] & _); assumption.
  - destruct o as [r|e]; [contradiction|].
    unfold settle. destruct (awaited j s); [|exact Hd]. exact Hd.
Qed.

Lemma data_none_run (evs : list event) :
  forall s : state,
    Forall (@resolves_nothing T E) evs ->
    data (vis s) = None -> data (vis (run evs s)) = None.
Proof.
  induction evs as [|ev evs IH]; intros s Hall Hd; simpl; [exact Hd|].
  inversion Hall; subst. apply IH; [assumption|]. now apply data_none_step.
Qed.

Lemma dispatched_awaited (q : jsstring) (s0 : state) :
  q <> [] ->
  fetched (fetch_action q s0) = fetched s0 ++ [q] /\
  awaited (List.length (fetched s0)) (fetch_action q s0) = true /\
  vis (fetch_action q s0) = mkVisible None true false (error (vis s0)).
Proof.
  intros Hne.
  destruct (fetch_action_traces q s0) as (_ & Hf & Hi).
  rewrite fetch_action_vis, Hf, (eqb_neq Hne) in *.
  repeat split. apply awaited_In. rewrite Hi. apply in_or_app. right.
  now left.
Qed.

(** C5. For a non-empty query, the action calls [fetchData] with it; when
    that call resolves to [r], whatever else happened in between short of
    this very promise settling, the visible state is data = r,
    error = null, loading = false, loaded = true. *)
Theorem resolved_cycle_state
    (s0 : state) (q : jsstring) (mid : list event) (r : T) :
  q <> [] ->
  Forall (leaves_pending (List.length (fetched s0))) mid ->
  let i := List.length (fetched s0) in
  let dispatched := fetch_action q s0 in
  let final := run (mid ++ [Settle i (Fulfilled E r)]) dispatched in
  fetched dispatched = fetched s0 ++ [q] /\
  vis dispatched = mkVisible None true false (error (vis s0)) /\
  vis final = mkVisible (Some r) false true None.
Proof.
  intros Hne Hmid i dispatched final.
  destruct (dispatched_awaited s0 Hne) as (Hf & Ha & Hv).
  split; [exact Hf|]. split; [exact Hv|].
  unfold final. rewrite hook_run_app. simpl.
  apply settle_fulfilled. now apply awaited_run.
Qed.

(** C4, as the code has it.  For a non-empty query, when the [fetchData]
    call of the action rejects with [e], the error is caught: the action
    completes normally and no error escapes.  The visible state then has
    error = e, loading = false, loaded = true, and [data] is what it was
    when the rejection arrived; that is [null] when no other fetch has
    resolved since this action started. *)
Theorem rejected_cycle_state
    (s0 : state) (q : jsstring) (mid : list event) (e : E) :
  q <> [] ->
  Forall (leaves_pending (List.length (fetched s0))) mid ->
  let i := List.length (fetched s0) in
  let before := run mid (fetch_action q s0) in
  let final := step before (Settle i (Rejected T e)) in
  (snd (resume (Rejected T e) before) = None /\
   uncaught final = uncaught s0) /\
  (error (vis final) = Some e /\ loading (vis final) = false /\
   loaded (vis final) = true /\ data (vis final) = data (vis before)) /\
  (Forall (@resolves_nothing T E) mid ->
   vis final = mkVisible None false true (Some e)).
Proof.
  intros Hne Hmid i before final.
  destruct (dispatched_awaited s0 Hne) as (Hf & Ha & Hv).
  assert (Hb : awaited i before = true) by now apply awaited_run.
  destruct (settle_rejected i e _ Hb) as [Hvis Hun].
  split; [split|split].
  - apply resume_normal.
  - unfold final. rewrite step_uncaught. unfold before.
    rewrite run_uncaught. apply fetch_action_frame.
  - unfold final. simpl. rewrite Hvis. repeat split.
  - intros Hquiet. unfold final. simpl. rewrite Hvis.
    unfold before. rewrite data_none_run; [reflexivity|exact Hquiet|].
    now rewrite Hv.
Qed.

(** *** The invariant of the visible state *)

Abbreviation mstep := (@mstep T E delay).
Abbreviation mreachable := (@mreachable T E delay).

Lemma settle_inflight_eq (i : nat) (o : outcome T E) (s : state) :
  awaited i s = true ->
  inflight (settle i o s) = filter (fun j => negb (j =? i)) (inflight s).
Proof. intros Ha. unfold settle. rewrite Ha. destruct o; reflexivity. Qed.

(** A wait either starts no action and leaves the visible state as it
    is, or starts one, and then [data] and [loaded] are reset. *)
Lemma actions_started (ran : list jsstring) :
  forall s : state,
    let s' := fold_left (fun s q => fetch_action q s) ran s in
    List.length (entered s') = List.length (entered s) + List.length ran /\
    (ran = [] -> vis s' = vis s) /\
    (ran <> [] -> data (vis s') = None /\ loaded (vis s') = false) /\
    error (vis s') = error (vis s).
Proof.
  induction ran as [|q ran IH]; intros s; simpl.
  - split; [lia|]. split; [reflexivity|]. split; [|reflexivity].
    intros H. now contradiction H.
  - destruct (IH (fetch_action q s)) as (Hlen & Hsame & Hreset & Herr).
    destruct (fetch_action_traces q s) as (Hen & _).
    rewrite Hen, length_app in Hlen. cbn [List.length] in Hlen.
    split; [lia|]. split; [discriminate|]. split.
    + intros _. destruct ran as [|q' ran].
      * rewrite (Hsame eq_refl), fetch_action_vis. split; reflexivity.
      * apply Hreset. discriminate.
    + now rewrite Herr, fetch_action_vis.
Qed.

Lemma elapse_started (dt : nat) (s : state) :
  (List.length (entered s) <? List.length (entered (elapse dt s))) = false /\
  vis (elapse dt s) = vis s \/
  (List.length (entered s) <? List.length (entered (elapse dt s))) = true /\
  data (vis (elapse dt s)) = None /\ loaded (vis (elapse dt s)) = false /\
  error (vis (elapse dt s)) = error (vis s).
Proof.
  unfold elapse. destruct (advance dt (env s)) as [ran h].
  destruct (actions_started ran (with_env h s))
    as (Hlen & Hsame & Hreset & Herr).
  change (entered (with_env h s)) with (entered s) in Hlen.
  destruct ran as [|q ran].
  - left. split; [apply Nat.ltb_ge; simpl; lia | reflexivity].
  - right. split; [apply Nat.ltb_lt; rewrite Hlen; simpl; lia|].
    destruct Hreset as [Hd Hl]; [discriminate|]. auto.
Qed.

Lemma invariant_mount (q : jsstring) (t0 id0 : nat) :
  inductive_invariant (mmount T E delay q t0 id0).
Proof.
  split; [split|split]; simpl.
  - reflexivity.
  - discriminate.
  - reflexivity.
  - reflexivity.
Qed.

Lemma invariant_step (ms : monitor T E * state) (ev : event) :
  inductive_invariant ms -> inductive_invariant (mstep ms ev).
Proof.
  destruct ms as [m s]. intros [[Hone Hlast] [Hdata Herror]].
  unfold inductive_invariant, kept_invariant, mstep, Hook.mstep in *.
  cbn [fst snd] in *. destruct ev as [q|dt|i o]; cbn [Hook.step observe].
  - (* a render touches neither the visible state nor the requests *)
    fold (render q s).
    destruct (render_frame q s) as (Hv & _). rewrite Hv.
    destruct (eqb q (query s)); cbn [last_settled resolved]; auto.
  - (* a wait leaves the visible state alone or starts an action *)
    destruct (elapse_started dt s) as [[Hno Hv]|(Hyes & Hd & Hl & He)].
    + rewrite Hno, Hv. auto.
    + rewrite Hyes, Hl, Hd, He, andb_false_r. cbn [last_settled resolved].
      repeat split; [discriminate | exact Herror].
  - (* a promise that settles writes [error], and [data] if it resolves *)
    destruct (awaited i s) eqn:Ha; [|fold (settle i o s)].
    2:{ unfold settle. rewrite Ha. auto. }
    fold (settle i o s). cbn [last_settled resolved].
    destruct o as [r|e].
    + destruct (@settle_fulfilled i r s Ha) as [-> _]. cbn.
      split; [split; [reflexivity|]|split; reflexivity].
      intros _. exists (Fulfilled E r). auto.
    + destruct (@settle_rejected i e s Ha) as [-> _]. cbn.
      split; [split; [reflexivity|]|split; [exact Hdata|reflexivity]].
      intros _. exists (Rejected T e). auto.
Qed.

Lemma mreachable_mrun (evs : list event) :
  forall ms, mreachable ms -> mreachable (mrun delay evs ms).
Proof.
  induction evs as [|ev evs IH]; intros ms Hr; simpl; [exact Hr|].
  apply IH. now constructor.
Qed.

(** C6, as the code has it.  In every state the hook can reach, [loading]
    and [loaded] are not both true; and when [loaded] is true, some cycle
    has settled, [error] is the error of the latest cycle to settle ([null]
    if it resolved), and [data] is its result if it resolved; if it was
    rejected, [data] is the result of the latest fetch to resolve since an
    action last started, and [null] if none has.  The latest cycle to
    settle counts whether or not the query has changed since it started.
    Whether [loaded] is true or not, [data] is the result of the latest
    fetch to resolve since an action last started, and [null] if none has;
    and [error] is the error of the latest cycle to settle, and [null] if
    that one resolved or none has settled. *)
Theorem loading_loaded_invariant (ms : monitor T E * state) :
  mreachable ms ->
  kept_invariant ms /\
  data (vis (snd ms)) = resolved (fst ms) /\
  error (vis (snd ms)) = error_of (last_settled (fst ms)).
Proof.
  intros Hr.
  change (inductive_invariant ms).
  induction Hr as [q t0 id0|ms ev _ IH].
  - apply invariant_mount.
  - now apply invariant_step.
Qed.

End Controller.

(** *** The scenarios of the specification *)

Import Scenario.

(** Type "a", then "p" 100 later: [fetchData] is called once, with "ap",
    400 after the second keystroke. *)
Lemma superseded_cycle_never_runs_witness :
  ((Z.of_nat default_delay <= TIMEOUT_MAX)%Z /\
   just_changed default_delay (js "a") (mounted (js "a")) /\
   js "ap" <> js "a" /\ 100 < default_delay) /\
  fetched (run default_delay
             ([Wait _ _ 100; Render _ _ (js "ap")] ++ [Wait _ _ 400])
             (mounted (js "a"))) = [js "ap"].
Proof.
  assert (H0 : (Z.of_nat default_delay <= TIMEOUT_MAX)%Z)
    by (unfold default_delay, TIMEOUT_MAX; lia).
  assert (H1 : just_changed default_delay (js "a") (mounted (js "a")))
    by apply first_render.
  assert (H2 : js "ap" <> js "a") by discriminate.
  assert (H3 : 100 < default_delay) by (unfold default_delay; lia).
  split; [auto|].
  exact (proj2 (proj2 (proj2 (proj2
           (@superseded_cycle_never_runs (list item) jsstring default_delay
              (js "a") (js "ap") (mounted (js "a")) 100 400 [] H0 H1 H2
              H3))))).
Defined.

(** C2, as stated, fails for a delay of 2^31 ms: the host does not wait
    for it.  The query is "a", then "ap" 50 later, which is less than the
    delay; by then the action of "a" has run, and both "a" and "ap" are
    fetched. *)
Lemma superseded_cycle_counterexample :
  let s1 := Hook.mount (list item) jsstring overlong_delay (js "a") 0 1 in
  let s3 := run overlong_delay
              [Wait _ _ 50; Render _ _ (js "ap"); Wait _ _ 50] s1 in
  (just_changed overlong_delay (js "a") s1 /\
   js "ap" <> js "a" /\ 50 < overlong_delay) /\
  entered s3 = [js "a"; js "ap"] /\
  fetched s3 = [js "a"; js "ap"].
Proof.
  intros s1 s3.
  assert (H0 : timeout overlong_delay <= 50)
    by (unfold overlong_delay; rewrite timeout_wraps; lia).
  assert (H1 : just_changed overlong_delay (js "a") s1)
    by apply first_render.
  assert (H2 : js "ap" <> js "a") by discriminate.
  split.
  - split; [exact H1|]. split; [exact H2|]. unfold overlong_delay. lia.
  - apply (@unwaited_queries_fetched (list item) jsstring overlong_delay
             (js "a") (js "ap") s1 50 50 H1); try assumption; discriminate.
Qed.

(** "ap" is fetched and resolves to the apple. *)
Lemma resolved_cycle_state_witness :
  (js "ap" <> [] /\
   Forall (leaves_pending
             (List.length (fetched (mounted (js "ap")))))
          [Wait (list item) jsstring 500]) /\
  vis (run default_delay
         ([Wait _ _ 500] ++ [Settle 0 (Fulfilled jsstring apple)])
         (fetch_action (js "ap") (mounted (js "ap"))))
  = mkVisible (Some apple) false true None.
Proof.
  assert (H1 : js "ap" <> []) by discriminate.
  assert (H2 : Forall (leaves_pending
                         (List.length (fetched (mounted (js "ap")))))
                      [Wait (list item) jsstring 500])
    by (repeat constructor).
  split; [auto|].
  exact (proj2 (proj2
           (@resolved_cycle_state (list item) jsstring default_delay
              (mounted (js "ap")) (js "ap") [Wait _ _ 500] apple H1 H2))).
Defined.

(** "ap" is fetched and the fetch fails: "network down". *)
Lemma rejected_cycle_state_witness :
  (js "ap" <> [] /\
   Forall (leaves_pending
             (List.length (fetched (mounted (js "ap")))))
          [Wait (list item) jsstring 500]) /\
  vis (step default_delay
         (run default_delay [Wait _ _ 500]
              (fetch_action (js "ap") (mounted (js "ap"))))
         (Settle 0 (Rejected (list item) network_down)))
  = mkVisible None false true (Some network_down).
Proof.
  assert (H1 : js "ap" <> []) by discriminate.
  assert (H2 : Forall (leaves_pending
                         (List.length (fetched (mounted (js "ap")))))
                      [Wait (list item) jsstring 500])
    by (repeat constructor).
  split; [auto|].
  apply (proj2 (proj2
           (@rejected_cycle_state (list item) jsstring default_delay
              (mounted (js "ap")) (js "ap") [Wait _ _ 500] network_down
              H1 H2))).
  repeat constructor.
Defined.

(** C4, as stated, fails: "a" is being fetched when "ap" is fetched too;
    the fetch of "a" resolves, then the fetch of "ap" is rejected.  The
    cycle of "ap" has run to its end with a rejection, and [data] is the
    result for "a", not [null]. *)
Lemma rejected_cycle_counterexample :
  let s := run default_delay
             (two_fetches ++
              [Settle 0 (Fulfilled jsstring apple);
               Settle 1 (Rejected (list item) network_down)])
             (mounted (js "a")) in
  reachable default_delay s /\
  fetched s = [js "a"; js "ap"] /\
  vis s = mkVisible (Some apple) false true (Some network_down) /\
  vis s <> mkVisible None false true (Some network_down).
Proof.
  intros s. split; [|split; [|split]].
  - apply reachable_run. constructor.
  - reflexivity.
  - reflexivity.
  - discriminate.
Qed.

(** C6, as stated, fails in two ways.  [stale]: "a" is being fetched when
    the query changes to "ap"; the fetch of "a" then resolves, and [loaded]
    is true with the data of a cycle that was superseded before it settled,
    while no cycle that was not superseded has settled at all.  [mixed]:
    both fetches are awaited; "a" resolves, then "ap", the current query,
    is rejected; the latest cycle to settle was not superseded and failed,
    yet [data] is the result for "a". *)
Lemma stated_invariant_counterexample :
  let stale := mrun default_delay
                 [Wait _ _ 400; Render _ _ (js "ap");
                  Settle 0 (Fulfilled jsstring apple)]
                 (watched (js "a")) in
  let mixed := mrun default_delay
                 (two_fetches ++
                  [Settle 0 (Fulfilled jsstring apple);
                   Settle 1 (Rejected (list item) network_down)])
                 (watched (js "a")) in
  (mreachable default_delay stale /\
   vis (snd stale) = mkVisible (Some apple) false true None /\
   last_honoured (fst stale) = None /\
   ~ stated_invariant stale) /\
  (mreachable default_delay mixed /\
   vis (snd mixed) = mkVisible (Some apple) false true (Some network_down) /\
   last_honoured (fst mixed) = Some (Rejected (list item) network_down) /\
   ~ stated_invariant mixed).
Proof.
  intros stale mixed. split; (split; [|split; [|split]]).
  - apply mreachable_mrun. constructor.
  - reflexivity.
  - reflexivity.
  - intros [_ H]. destruct (H eq_refl) as [o [Ho _]]. discriminate Ho.
  - apply mreachable_mrun. constructor.
  - reflexivity.
  - reflexivity.
  - intros [_ H]. destruct (H eq_refl) as [o [Ho Hr]].
    vm_compute in Ho. injection Ho as <-.
    destruct Hr as [Hd _]. vm_compute in Hd. discriminate Hd.
Qed.

(** The scenario of the specification, step by step: "a" is typed, "p" 100
    later; 399 after that nothing has happened; one unit later "ap" is
    being fetched and [loading] is true, and no call was made for "a"; when
    the fetch resolves the apple is shown. *)
Lemma scenario_a_then_ap :
  let typed := run default_delay [Wait _ _ 100; Render _ _ (js "ap")]
                   (mounted (js "a")) in
  let waiting := step default_delay typed (Wait _ _ 399) in
  let fetching := step default_delay waiting (Wait _ _ 1) in
  let shown := step default_delay fetching
                    (Settle 0 (Fulfilled jsstring apple)) in
  (fetched waiting = [] /\ vis waiting = mkVisible None false false None) /\
  (fetched fetching = [js "ap"] /\
   vis fetching = mkVisible None true false None) /\
  vis shown = mkVisible (Some apple) false true None.
Proof. repeat split. Qed.

(** The second of the two runs above satisfies the invariant the code
    keeps: the latest cycle to settle was rejected, and [data] is the result
    of the fetch that resolved before it. *)
Lemma loading_loaded_invariant_witness :
  let ms := mrun default_delay
              (two_fetches ++
               [Settle 0 (Fulfilled jsstring apple);
                Settle 1 (Rejected (list item) network_down)])
              (watched (js "a")) in
  mreachable default_delay ms /\
  (kept_invariant ms /\
   data (vis (snd ms)) = resolved (fst ms) /\
   error (vis (snd ms)) = error_of (last_settled (fst ms))).
Proof.
  intros ms.
  assert (Hr : mreachable default_delay ms)
    by (apply mreachable_mrun; constructor).
  split; [exact Hr|].
  exact (@loading_loaded_invariant (list item) jsstring default_delay ms Hr).
Defined.

End HookFacts.

(* ================================================================= *)
(** * Further properties: traces *)

Module TraceFacts.
Import Trace.

Section Subseq.

Variable A : Type.

Lemma subseq_nil_l (l : list A) : subseq [] l.
Proof. induction l; constructor; assumption. Qed.

Lemma subseq_refl (l : list A) : subseq l l.
Proof. induction l; constructor; assumption. Qed.

Lemma subseq_app_r (l1 l2 l3 : list A) :
  subseq l1 l2 -> subseq l1 (l2 ++ l3).
Proof.
  induction 1; simpl.
  - apply subseq_nil_l.
  - now constructor.
  - now constructor.
Qed.

Lemma subseq_snoc (l1 l2 : list A) (x : A) :
  subseq l1 l2 -> subseq (l1 ++ [x]) (l2 ++ [x]).
Proof.
  induction 1; simpl.
  - apply subseq_refl.
  - now constructor.
  - now constructor.
Qed.

Lemma subseq_length (l1 l2 : list A) :
  subseq l1 l2 -> List.length l1 <= List.length l2.
Proof. induction 1; simpl; lia. Qed.

Lemma subseq_filter (f : A -> bool) (l1 l2 : list A) :
  subseq l1 l2 -> subseq (filter f l1) (filter f l2).
Proof.
  induction 1; simpl.
  - constructor.
  - destruct (f x); [now constructor | assumption].
  - destruct (f x); [now constructor | assumption].
Qed.

Lemma subseq_In (l1 l2 : list A) (x : A) :
  subseq l1 l2 -> In x l1 -> In x l2.
Proof.
  induction 1; simpl; intros Hin.
  - exact Hin.
  - right. auto.
  - destruct Hin; [now left | right; auto].
Qed.

End Subseq.

End TraceFacts.

(* ================================================================= *)
(** * Further properties of [debounce] *)

Module DebounceTraceFacts.
Import Timer Debounce DebounceFacts Trace TraceFacts.

Section Instance.

Variable A : Type.
Variable delay : nat.

Abbreviation world := (world A).
Abbreviation run := (run delay).
Abbreviation step := (step delay).

Lemma accounted_subseq (cs : list A) (w : world) :
  accounted cs w -> subseq (calls w) cs.
Proof.
  intros [[_ H]|(t & before & _ & _ & -> & H)]; [exact H|].
  now apply subseq_app_r.
Qed.

Lemma accounted_single (cs : list A) (w : world) :
  accounted cs w -> single_timer w.
Proof.
  intros [[H _]|(t & before & Hid & Hp & _)]; [now left|].
  right. now exists t.
Qed.

Lemma accounted_step (cs : list A) (w : world) (o : op A) :
  accounted cs w -> accounted (cs ++ called [o]) (step w o).
Proof.
  intros Hacc.
  pose proof (accounted_subseq Hacc) as Hsub.
  pose proof (single_timer_tidy (accounted_single Hacc)) as Ht.
  destruct o as [a| |dt]; simpl.
  - rewrite (trigger_tidy delay a Ht). right.
    exists (mkTimer (fresh (env w)) (now (env w) + timeout delay) a), cs.
    repeat split. exact Hsub.
  - rewrite app_nil_r, (cancel_tidy Ht). left. split; [reflexivity|exact Hsub].
  - rewrite app_nil_r.
    destruct Hacc as [[Hnil H]|(t & before & Hid & Hp & -> & H)].
    + rewrite (elapse_idle dt _ Hnil). left. split; [reflexivity|exact H].
    + rewrite (elapse_armed dt _ Hp).
      destruct (due t <=? now (env w) + dt).
      * left. split; [reflexivity|]. cbn [calls]. now apply subseq_snoc.
      * right. exists t, before. repeat split; assumption.
Qed.

Lemma called_cons (o : op A) (ops : list (op A)) :
  called (o :: ops) = called [o] ++ called ops.
Proof. unfold called. simpl. now rewrite app_nil_r. Qed.

Lemma accounted_run (ops : list (op A)) :
  forall (cs : list A) (w : world),
    accounted cs w -> accounted (cs ++ called ops) (run ops w).
Proof.
  induction ops as [|o ops IH]; intros cs w Hacc.
  - simpl. now rewrite app_nil_r.
  - rewrite called_cons, app_assoc. apply (IH _ (step w o)).
    now apply accounted_step.
Qed.

(** X1. However a debounced function is used, the runs of the wrapped
    function are a selection of the calls made, in the order of the calls:
    it runs at most once per call, only with arguments it was called with,
    and never out of order; while a timer is queued, the call it stands for
    is the last one made and has not run. *)
Theorem runs_follow_calls (ops : list (op A)) (t0 id0 : nat) :
  let w := run ops (init A t0 id0) in
  subseq (calls w) (called ops) /\
  List.length (calls w) <= List.length (called ops) /\
  (forall t, In t (pending (env w)) ->
             exists before,
               called ops = before ++ [callback t] /\
               subseq (calls w) before).
Proof.
  intros w.
  assert (Hacc : accounted (called ops) w).
  { apply (@accounted_run ops [] (init A t0 id0)). left.
    split; [reflexivity | constructor]. }
  split; [now apply accounted_subseq|]. split.
  - apply subseq_length. now apply accounted_subseq.
  - intros t Hin.
    destruct Hacc as [[Hnil _]|(u & before & _ & Hp & Heq & H)].
    + rewrite Hnil in Hin. destruct Hin.
    + rewrite Hp in Hin. destruct Hin as [<-|[]]. now exists before.
Qed.

(** X2. One debounced function never has more than one timer queued, and
    [timerId] holds the handle of the one that is. *)
Theorem one_timer_at_most (ops : list (op A)) (t0 id0 : nat) :
  let w := run ops (init A t0 id0) in
  List.length (pending (env w)) <= 1 /\
  (forall t, In t (pending (env w)) -> timerId w = Some (tid t)).
Proof.
  intros w. destruct (single_timer_run delay ops t0 id0) as [Hs Hlen].
  split; [exact Hlen|]. now apply single_timer_tidy.
Qed.

End Instance.

End DebounceTraceFacts.

(* ================================================================= *)
(** * Further properties of [useFetchOnQueryChange] *)

Module HookTraceFacts.
Import Timer JsString Hook TimerFacts JsStringFacts HookFacts Trace TraceFacts.

Section Controller.

Variable T : Type.
Variable E : Type.
Variable delay : nat.

Abbreviation state := (state T E).
Abbreviation event := (event T E).
Abbreviation step := (@step T E delay).
Abbreviation run := (@run T E delay).
Abbreviation render := (@render T E delay).
Abbreviation mount := (mount T E delay).
Abbreviation reachable := (@reachable T E delay).

(** *** What the steps leave alone *)

Lemma render_traces (q : jsstring) (s : state) :
  entered (render q s) = entered s /\ fetched (render q s) = fetched s /\
  query (render q s) = q.
Proof.
  unfold render, Hook.render. destruct (eqb q (query s)) eqn:Hq.
  - apply eqb_eq in Hq. subst q. repeat split.
  - unfold effect, cleanup, Debounce.debouncedFunction, Debounce.cancel,
      setTimeout.
    destruct (timerId s); repeat split.
Qed.

Lemma actions_traces (ran : list jsstring) :
  forall s : state,
    let s' := fold_left (fun s q => fetch_action q s) ran s in
    entered s' = entered s ++ ran /\
    fetched s' = fetched s ++ filter nonempty ran /\
    error (vis s') = error (vis s).
Proof.
  induction ran as [|q ran IH]; intros s; simpl.
  - now rewrite !app_nil_r.
  - destruct (IH (fetch_action q s)) as (Hen & Hfe & Her).
    destruct (fetch_action_traces q s) as (Hen' & Hfe' & _).
    rewrite Hen, Hfe, Her, Hen', Hfe', fetch_action_vis, <- !app_assoc.
    unfold nonempty. destruct (eqb q []); repeat split.
Qed.

Lemma elapse_traces (dt : nat) (s : state) :
  exists ran,
    entered (elapse dt s) = entered s ++ ran /\
    fetched (elapse dt s) = fetched s ++ filter nonempty ran /\
    error (vis (elapse dt s)) = error (vis s) /\
    now (env (elapse dt s)) = now (env s) + dt.
Proof.
  unfold elapse, advance.
  destruct (partition _ (pending (env s))) as [ready rest].
  match goal with
  | |- context [fold_left _ ?ran ?s0] =>
      exists ran;
      destruct (actions_traces ran s0) as (Hen & Hfe & Her);
      destruct (actions_frame ran s0) as (He & _)
  end.
  rewrite Hen, Hfe, Her, He. repeat split.
Qed.

(** *** Calls of [fetchData] and the values of the query *)

Lemma fetched_of_entered (s : state) :
  reachable s -> fetched s = filter nonempty (entered s).
Proof.
  induction 1 as [q t0 id0|s ev _ IH].
  - reflexivity.
  - destruct ev as [q|dt|i o]; simpl.
    + destruct (render_traces q s) as (-> & -> & _). exact IH.
    + destruct (elapse_traces dt s) as (ran & -> & -> & _).
      now rewrite filter_app, IH.
    + destruct (settle_frame i o s) as (_ & _ & _ & -> & ->). exact IH.
Qed.

Lemma hook_accounted_subseq (history : list jsstring) (s : state) :
  hook_accounted history s -> subseq (entered s) history.
Proof.
  intros [[_ H]|(id & d & before & _ & _ & -> & H)]; [exact H|].
  now apply subseq_app_r.
Qed.

Lemma hook_accounted_single (history : list jsstring) (s : state) :
  hook_accounted history s -> single_timer s.
Proof.
  intros [[H _]|(id & d & before & Hid & Hp & _)]; [now left|].
  right. now exists id, d.
Qed.

Lemma hook_accounted_step (history : list jsstring) (s : state) (ev : event) :
  hook_accounted history s ->
  hook_accounted (history ++ changes (query s) [ev]) (step s ev).
Proof.
  intros Hacc.
  pose proof (hook_accounted_subseq Hacc) as Hsub.
  pose proof (hook_single_timer_tidy (hook_accounted_single Hacc)) as Ht.
  destruct ev as [q|dt|i o]; simpl.
  - destruct (eqb q (query s)) eqn:Hq.
    + apply eqb_eq in Hq. subst q. fold (render (query s) s).
      now rewrite render_same, app_nil_r.
    + assert (Hne : q <> query s).
      { intros ->. now rewrite eqb_refl in Hq. }
      fold (render q s). rewrite (render_new delay Ht Hne). right.
      exists (fresh (env s)), (now (env s) + timeout delay), history.
      repeat split. exact Hsub.
  - rewrite app_nil_r.
    destruct Hacc as [[Hnil H]|(id & d & before & Hid & Hp & -> & H)].
    + rewrite (hook_elapse_idle dt _ Hnil). left. split; [reflexivity|exact H].
    + rewrite (hook_elapse_armed dt _ Hp).
      destruct (due _ <=? now (env s) + dt).
      * match goal with
        | |- hook_accounted _ (fetch_action ?q ?s0) =>
            destruct (fetch_action_frame q s0) as (He & _);
            destruct (fetch_action_traces q s0) as (Hen & _)
        end.
        left. rewrite He, Hen. split; [reflexivity|].
        now apply subseq_snoc.
      * right. exists id, d, before. repeat split; assumption.
  - rewrite app_nil_r.
    destruct (settle_frame i o s) as (He & Hid & Hq & _ & Hen).
    unfold hook_accounted. rewrite He, Hid, Hq, Hen. exact Hacc.
Qed.

Lemma changes_cons (s : state) (ev : event) (evs : list event) :
  changes (query s) (ev :: evs) =
  changes (query s) [ev] ++ changes (query (step s ev)) evs.
Proof.
  destruct ev as [q|dt|i o]; simpl.
  - destruct (render_traces q s) as (_ & _ & Hq). fold (render q s).
    rewrite Hq. destruct (eqb q (query s)) eqn:He; [|reflexivity].
    apply eqb_eq in He. now subst q.
  - now destruct (elapse_frame dt s) as (_ & _ & ->).
  - now destruct (settle_frame i o s) as (_ & _ & -> & _).
Qed.

Lemma hook_accounted_run (evs : list event) :
  forall (history : list jsstring) (s : state),
    hook_accounted history s ->
    hook_accounted (history ++ changes (query s) evs) (run evs s).
Proof.
  induction evs as [|ev evs IH]; intros history s Hacc.
  - simpl. now rewrite app_nil_r.
  - rewrite changes_cons, app_assoc. apply (IH _ (step s ev)).
    now apply hook_accounted_step.
Qed.

(** X3. However the query changes and whatever settles meanwhile, the
    actions entered are a selection, in order, of the values the query has
    taken, and [fetchData] is called exactly for the non-empty ones among
    them: at most once per value of the query, never with a value it did
    not have, never with the empty string, and never out of order. *)
Theorem fetches_follow_typing
    (q0 : jsstring) (t0 id0 : nat) (evs : list event) :
  let s := run evs (mount q0 t0 id0) in
  let typed := q0 :: changes q0 evs in
  subseq (entered s) typed /\
  fetched s = filter nonempty (entered s) /\
  subseq (fetched s) (filter nonempty typed) /\
  List.length (fetched s) <= List.length typed.
Proof.
  intros s typed.
  assert (Hacc : hook_accounted typed s).
  { apply (@hook_accounted_run evs [q0] (mount q0 t0 id0)).
    rewrite mount_state. right. exists id0, (t0 + timeout delay), [].
    repeat split. constructor. }
  pose proof (hook_accounted_subseq Hacc) as Hsub.
  assert (Hf : fetched s = filter nonempty (entered s)).
  { apply fetched_of_entered. apply reachable_run. constructor. }
  split; [exact Hsub|]. split; [exact Hf|]. split.
  - rewrite Hf. now apply subseq_filter.
  - rewrite Hf. etransitivity; [apply filter_length_le|].
    now apply subseq_length.
Qed.

(** *** When the action of a change runs *)

Lemma fired_by_short (evs : list event) :
  forall left, waited evs < left -> fired_by left evs = false.
Proof.
  induction evs as [|ev evs IH]; intros left Hlt; [reflexivity|].
  destruct ev as [q|d|i o]; simpl in *; try (apply IH; exact Hlt).
  rewrite (proj2 (Nat.leb_gt left d)) by lia. apply IH. lia.
Qed.

Lemma fired_by_enough (evs : list event) :
  forall left, 0 < left -> left <= waited evs -> fired_by left evs = true.
Proof.
  induction evs as [|ev evs IH]; intros left Hpos Hle; simpl in *; [lia|].
  destruct ev as [q|d|i o]; try (apply IH; assumption).
  destruct (Nat.leb_spec left d); [reflexivity|]. apply IH; lia.
Qed.

Lemma quiet_idle (evs : list event) :
  forall s : state,
    pending (env s) = [] ->
    Forall (@no_render T E) evs ->
    entered (run evs s) = entered s /\ fetched (run evs s) = fetched s /\
    pending (env (run evs s)) = [].
Proof.
  induction evs as [|ev evs IH]; intros s Hp Hall; [now auto|].
  inversion Hall as [|? ? Hev Hrest]; subst.
  destruct ev as [q|d|i o]; [destruct Hev| |]; simpl.
  - rewrite (hook_elapse_idle d _ Hp).
    apply (IH (with_env (mkHost (now (env s) + d) (fresh (env s)) []) s));
      [reflexivity | exact Hrest].
  - destruct (settle_frame i o s) as (He & _ & _ & Hfe & Hen).
    destruct (IH (settle i o s)) as (H1 & H2 & H3);
      [now rewrite He | exact Hrest |].
    fold (run evs (settle i o s)). rewrite H1, H2, H3, Hfe, Hen. auto.
Qed.

Lemma timer_runs (evs : list event) :
  forall (s : state) (t : timer jsstring),
    pending (env s) = [t] ->
    Forall (@no_render T E) evs ->
    ran_once (fired_by (due t - now (env s)) evs) (callback t) s
             (run evs s) /\
    (fired_by (due t - now (env s)) evs = true ->
     pending (env (run evs s)) = []).
Proof.
  induction evs as [|ev evs IH]; intros s t Hp Hall.
  - simpl. split; [split; now rewrite app_nil_r | discriminate].
  - inversion Hall as [|? ? Hev Hrest]; subst.
    destruct ev as [q|d|i o]; [destruct Hev| |].
    + cbn [Hook.run fold_left Hook.step fired_by].
      rewrite (hook_elapse_armed d _ Hp).
      replace (due t - now (env s) <=? d) with (due t <=? now (env s) + d)
        by (destruct (Nat.leb_spec (due t) (now (env s) + d));
            symmetry; [apply Nat.leb_le | apply Nat.leb_gt]; lia).
      destruct (due t <=? now (env s) + d) eqn:Hd; cbn [orb].
      * set (s0 := with_env (mkHost (now (env s) + d) (fresh (env s)) []) s).
        destruct (fetch_action_frame (callback t) s0) as (He & _).
        destruct (fetch_action_traces (callback t) s0) as (Hen & Hfe & _).
        destruct (@quiet_idle evs (fetch_action (callback t) s0))
          as (H1 & H2 & H3); [now rewrite He | exact Hrest |].
        fold (run evs (fetch_action (callback t) s0)).
        split; [split|intros _; exact H3].
        -- now rewrite H1, Hen.
        -- now rewrite H2, Hfe.
      * set (s0 := with_env (mkHost (now (env s) + d) (fresh (env s)) [t]) s).
        destruct (IH s0 t eq_refl Hrest) as [Hran Hgone].
        fold (run evs s0).
        replace (due t - now (env s0)) with (due t - now (env s) - d)
          in Hran, Hgone by (subst s0; simpl; lia).
        split; [exact Hran | exact Hgone].
    + cbn [Hook.run fold_left Hook.step fired_by].
      destruct (settle_frame i o s) as (He & _ & _ & Hfe & Hen).
      destruct (IH (settle i o s) t) as [[H1 H2] Hgone];
        [now rewrite He | exact Hrest |].
      fold (run evs (settle i o s)). rewrite He in H1, H2, Hgone.
      split; [split|exact Hgone].
      * now rewrite H1, Hen.
      * now rewrite H2, Hfe.
Qed.

(** X4. For a delay up to [TIMEOUT_MAX] (2^31 - 1 ms), which the host
    waits for in full: after the query has changed to [q], and as long as
    it does not change again, the action of [q] is entered exactly once, at
    the first wait by which [delay] has passed since the change, whatever
    promises settle in the meantime; [fetchData] is called then, unless [q]
    is empty, and no timer is left queued.  So nothing is entered before
    [delay] has passed, and (for a positive delay) the action has run once
    [delay] has passed. *)
Theorem action_runs_after_delay
    (q : jsstring) (s1 : state) (evs : list event) :
  (Z.of_nat delay <= TIMEOUT_MAX)%Z ->
  just_changed delay q s1 ->
  Forall (@no_render T E) evs ->
  let s := run evs s1 in
  (entered s = entered s1 ++ (if fired_by delay evs then [q] else []) /\
   fetched s =
     fetched s1 ++
     (if fired_by delay evs then (if eqb q [] then [] else [q]) else [])) /\
  (fired_by delay evs = true -> pending (env s) = []) /\
  (waited evs < delay -> entered s = entered s1) /\
  (0 < delay -> delay <= waited evs -> entered s = entered s1 ++ [q]).
Proof.
  intros Hfit Hch Hall s.
  destruct (just_changed_armed Hch) as (Hq & id & Hid & Hp).
  rewrite (timeout_in_range delay Hfit) in Hp.
  destruct (@timer_runs evs s1 _ Hp Hall) as [Hran Hgone].
  cbn [due callback] in Hran, Hgone.
  replace (now (env s1) + delay - now (env s1)) with delay in Hran, Hgone
    by lia.
  fold s in Hran, Hgone. destruct Hran as [Hen Hfe].
  split; [split; assumption|]. split; [exact Hgone|]. split.
  - intros Hshort. rewrite Hen, (fired_by_short evs Hshort).
    apply app_nil_r.
  - intros Hpos Hlong. now rewrite Hen, (fired_by_enough evs Hpos Hlong).
Qed.

(** *** What the visible state keeps *)

Lemma actions_loading (ran : list jsstring) :
  forall s : state,
    ran <> [] ->
    let s' := fold_left (fun s q => fetch_action q s) ran s in
    data (vis s') = None /\ loaded (vis s') = false /\
    (loading (vis s') = true -> inflight s' <> []).
Proof.
  induction ran as [|q ran IH]; intros s Hne; [contradiction|].
  simpl. destruct ran as [|q' ran].
  - simpl. rewrite fetch_action_vis.
    destruct (fetch_action_traces q s) as (_ & _ & Hi). rewrite Hi.
    cbn [data loaded loading]. repeat split.
    destruct (eqb q []); [discriminate|].
    intros _ Hnil. apply app_eq_nil in Hnil. destruct Hnil. discriminate.
  - apply IH. discriminate.
Qed.

(** X5. While the hook reports [loading], it holds no data, is not
    [loaded], and a [fetchData] promise is awaited. *)
Theorem loading_means_fetching (s : state) :
  reachable s ->
  loading (vis s) = true ->
  data (vis s) = None /\ loaded (vis s) = false /\ inflight s <> [].
Proof.
  induction 1 as [q t0 id0|s ev _ IH].
  - discriminate.
  - destruct ev as [q|dt|i o]; simpl.
    + destruct (render_frame delay q s) as (-> & -> & _). exact IH.
    + unfold elapse. destruct (advance dt (env s)) as [ran h].
      destruct ran as [|q ran]; [exact IH|].
      intros Hl.
      destruct (@actions_loading (q :: ran) (with_env h s))
        as (Hd & Hld & Hin); [discriminate|].
      auto.
    + unfold settle. destruct (awaited i s); [|exact IH].
      destruct o; discriminate.
Qed.

(** X6. [error] changes only when a [fetchData] promise settles: no change
    of the query and no action that starts, the one of the empty query
    included, clears or sets it.  An error stays on display until a later
    fetch settles. *)
Theorem error_kept_until_settled (s : state) (evs : list event) :
  Forall (@no_settle T E) evs ->
  error (vis (run evs s)) = error (vis s).
Proof.
  revert s. induction evs as [|ev evs IH]; intros s Hall; [reflexivity|].
  inversion Hall as [|? ? Hev Hrest]; subst. simpl.
  fold (run evs (step s ev)). rewrite (IH _ Hrest).
  destruct ev as [q|dt|i o]; [| |destruct Hev]; simpl.
  - now destruct (render_frame delay q s) as (-> & _).
  - now destruct (elapse_traces dt s) as (ran & _ & _ & -> & _).
Qed.

(** *** The timer of the hook *)

Lemma punctual_step (s : state) (ev : event) :
  tidy s -> punctual delay s -> punctual delay (step s ev).
Proof.
  intros Ht Hp. destruct ev as [q|dt|i o]; simpl.
  - unfold Hook.render. destruct (eqb q (query s)) eqn:Hq; [exact Hp|].
    assert (Hne : q <> query s).
    { intros ->. now rewrite eqb_refl in Hq. }
    generalize (render_new delay Ht Hne). unfold render, Hook.render.
    rewrite Hq. intros ->. intros t [<-|[]]. simpl.
    pose proof (timeout_le delay). lia.
  - intros t Hin.
    destruct (elapse_frame dt s) as (_ & Hsub & _).
    destruct (elapse_traces dt s) as (ran & _ & _ & _ & Hnow).
    rewrite Hnow. specialize (Hp t (Hsub t Hin)). lia.
  - destruct (settle_frame i o s) as (He & _).
    unfold punctual. rewrite He. exact Hp.
Qed.

(** X7. At any time at most one timer of the hook is queued; it is the one
    of the latest effect, its action is the one of the current query, and
    it is due no later than [delay] from now. *)
Theorem one_armed_fetch (s : state) :
  reachable s ->
  List.length (pending (env s)) <= 1 /\
  (forall t, In t (pending (env s)) ->
             timerId s = Some (tid t) /\ callback t = query s /\
             due t <= now (env s) + delay).
Proof.
  intros Hr.
  assert (Hp : punctual delay s).
  { induction Hr as [q t0 id0|s ev Hr IH].
    - rewrite mount_state. intros t [<-|[]]. simpl.
      pose proof (timeout_le delay). lia.
    - apply punctual_step; [exact (reachable_tidy Hr) | exact IH]. }
  destruct (reachable_single_timer Hr) as [Hnil|(id & d & Hid & Hq)].
  - rewrite Hnil. split; [simpl; lia|]. intros t [].
  - split; [rewrite Hq; simpl; lia|].
    intros t Hin. specialize (Hp t Hin). rewrite Hq in Hin.
    destruct Hin as [<-|[]]. auto.
Qed.

End Controller.

Import Scenario.

(** "ap" is typed; 399 later nothing has run, one unit later it has. *)
Lemma action_runs_after_delay_witness :
  ((Z.of_nat default_delay <= TIMEOUT_MAX)%Z /\
   just_changed default_delay (js "ap") (mounted (js "ap")) /\
   Forall (@no_render (list item) jsstring)
          [Wait _ _ 399; Settle 7 (Fulfilled jsstring apple); Wait _ _ 1]) /\
  entered (run default_delay
             [Wait _ _ 399; Settle 7 (Fulfilled jsstring apple); Wait _ _ 1]
             (mounted (js "ap"))) = [js "ap"].
Proof.
  assert (H0 : (Z.of_nat default_delay <= TIMEOUT_MAX)%Z)
    by (unfold default_delay, TIMEOUT_MAX; lia).
  assert (H1 : just_changed default_delay (js "ap") (mounted (js "ap")))
    by apply first_render.
  assert (H2 : Forall (@no_render (list item) jsstring)
                 [Wait _ _ 399; Settle 7 (Fulfilled jsstring apple);
                  Wait _ _ 1])
    by (repeat constructor).
  split; [auto|].
  exact (proj1 (proj1
           (@action_runs_after_delay (list item) jsstring default_delay
              (js "ap") (mounted (js "ap")) _ H0 H1 H2))).
Defined.

Lemma loading_means_fetching_witness :
  let s := step default_delay (mounted (js "ap")) (Wait _ _ 400) in
  (reachable default_delay s /\ loading (vis s) = true) /\
  (data (vis s) = None /\ loaded (vis s) = false /\ inflight s <> []).
Proof.
  intros s.
  assert (H1 : reachable default_delay s) by (repeat constructor).
  assert (H2 : loading (vis s) = true) by reflexivity.
  split; [auto|].
  exact (@loading_means_fetching (list item) jsstring default_delay s H1 H2).
Defined.

(** A fetch has failed; the input is cleared and the delay passes: the
    error is still there. *)
Lemma error_kept_until_settled_witness :
  let failed := run default_delay
                  [Wait _ _ 400;
                   Settle 0 (Rejected (list item) network_down)]
                  (mounted (js "ap")) in
  Forall (@no_settle (list item) jsstring) [Render _ _ []; Wait _ _ 400] /\
  error (vis (run default_delay [Render _ _ []; Wait _ _ 400] failed))
  = Some network_down.
Proof.
  intros failed.
  assert (H : Forall (@no_settle (list item) jsstring)
                     [Render _ _ []; Wait _ _ 400])
    by (repeat constructor).
  split; [exact H|].
  exact (@error_kept_until_settled (list item) jsstring default_delay
           failed _ H).
Defined.

Lemma one_armed_fetch_witness :
  let s := run default_delay [Wait _ _ 100; Render _ _ (js "ap")]
               (mounted (js "a")) in
  reachable default_delay s /\
  List.length (pending (env s)) <= 1 /\
  (forall t, In t (pending (env s)) ->
             timerId s = Some (tid t) /\ callback t = query s /\
             due t <= now (env s) + default_delay).
Proof.
  intros s.
  assert (H : reachable default_delay s)
    by (apply reachable_run; constructor).
  split; [exact H|].
  exact (@one_armed_fetch (list item) jsstring default_delay s H).
Defined.

End HookTraceFacts.

(* ================================================================= *)
(** * Properties of the mock API *)

Module ApiFacts.
Import Timer JsString Api TimerFacts JsStringFacts Trace TraceFacts.

(** *** Occurrences *)

Lemma starts_with_app (p s : jsstring) :
  starts_with p s = true <-> exists r, s = p ++ r.
Proof.
  revert s. induction p as [|c p IH]; intros s; simpl.
  - split; [intros _; now exists s | reflexivity].
  - destruct s as [|d s].
    + split; [discriminate | intros [r Hr]; discriminate].
    + rewrite andb_true_iff, Nat.eqb_eq, IH. split.
      * intros [-> [r ->]]. now exists r.
      * intros [r [= -> ->]]. split; [reflexivity | now exists r].
Qed.

Lemma includes_occurs (s p : jsstring) :
  includes s p = true <-> occurs p s.
Proof.
  unfold includes, indexOf, occurs.
  destruct (indexOf_from_spec p s 0)
    as [[Hm Hno]|[j (Hj & Hle & Hat & _)]].
  - rewrite Hm. simpl. split; [discriminate|].
    intros (i & Hi & Hs). rewrite (Hno i Hi) in Hs. discriminate.
  - rewrite Hj.
    replace (Z.of_nat (0 + j) =? -1)%Z with false
      by (symmetry; apply Z.eqb_neq; lia).
    split; [intros _; now exists j | reflexivity].
Qed.

Lemma occurs_trans (p q s : jsstring) :
  occurs p q -> occurs q s -> occurs p s.
Proof.
  intros (i & Hi & Hp) (j & Hj & Hq).
  apply starts_with_app in Hp. destruct Hp as [r1 Hr1].
  apply starts_with_app in Hq. destruct Hq as [r2 Hr2].
  assert (Hlen : List.length (skipn j s) = List.length q + List.length r2)
    by (rewrite Hr2; apply length_app).
  rewrite length_skipn in Hlen.
  exists (i + j). split; [lia|].
  apply starts_with_app. exists (r1 ++ r2).
  rewrite <- skipn_skipn, Hr2, skipn_app, Hr1.
  replace (i - List.length q) with 0 by lia. simpl.
  now rewrite app_assoc.
Qed.

Lemma occurs_nil (s : jsstring) : occurs [] s.
Proof. exists 0. split; [lia | reflexivity]. Qed.

Section Mock.

Variable lower : jsstring -> jsstring.
Variable DATA : list item.

Abbreviation filteredData := (filteredData lower DATA).
Abbreviation answer := (answer lower DATA).
Abbreviation answers := (answers lower DATA).
Abbreviation run := (run lower DATA).
Abbreviation step := (step lower DATA).
Abbreviation elapse := (elapse lower DATA).
Abbreviation consistent := (consistent lower DATA).
Abbreviation waits := (map Wait).

(** *** The filter *)

Lemma filteredData_In (q : jsstring) (it : item) :
  In it (filteredData q) <->
  In it DATA /\ occurs (lower q) (lower (name it)).
Proof.
  unfold filteredData, Api.filteredData.
  now rewrite filter_In, includes_occurs.
Qed.

Lemma filter_narrow (A : Type) (f g : A -> bool) (l : list A) :
  (forall x, f x = true -> g x = true) ->
  filter f (filter g l) = filter f l.
Proof.
  intros Himp. induction l as [|x l IH]; simpl; [reflexivity|].
  destruct (g x) eqn:Hg; simpl.
  - now rewrite IH.
  - destruct (f x) eqn:Hf; [|exact IH].
    rewrite (Himp x Hf) in Hg. discriminate.
Qed.

Lemma subseq_of_filter (A : Type) (f : A -> bool) (l : list A) :
  subseq (filter f l) l.
Proof.
  induction l as [|x l IH]; simpl; [constructor|].
  destruct (f x); now constructor.
Qed.

(** X8. When the lower-cased query [q1] occurs in the lower-cased query
    [q2] (as when [q2] extends [q1]), the results for [q2] are the results
    for [q1] filtered again: typing on never brings in an item, and keeps
    the order of the list. *)
Theorem longer_query_narrows (q1 q2 : jsstring) :
  occurs (lower q1) (lower q2) ->
  filteredData q2 =
    filter (fun it => includes (lower (name it)) (lower q2))
           (filteredData q1) /\
  subseq (filteredData q2) (filteredData q1) /\
  subseq (filteredData q1) DATA.
Proof.
  intros Hocc. split; [|split].
  - unfold filteredData, Api.filteredData. symmetry. apply filter_narrow.
    intros it Hin. apply includes_occurs. apply includes_occurs in Hin.
    now apply (occurs_trans Hocc).
  - assert (Heq : filteredData q2 =
                  filter (fun it => includes (lower (name it)) (lower q2))
                         (filteredData q1)).
    { unfold filteredData, Api.filteredData. symmetry. apply filter_narrow.
      intros it Hin. apply includes_occurs. apply includes_occurs in Hin.
      now apply (occurs_trans Hocc). }
    rewrite Heq. apply subseq_of_filter.
  - apply subseq_of_filter.
Qed.

(** X9. For the empty query (whose lower case is empty) the API returns
    the whole of [FRUIT_DATA], unfiltered. *)
Theorem empty_query_returns_all :
  lower [] = [] -> filteredData [] = DATA.
Proof.
  intros Hnil. unfold filteredData, Api.filteredData. rewrite Hnil.
  induction DATA as [|it l IH]; simpl; [reflexivity|].
  rewrite (proj2 (includes_occurs (lower (name it)) []) (occurs_nil _)).
  now rewrite IH.
Qed.

(** *** The promises *)

Lemma enqueue_last (t : timer (nat * jsstring)) (q : list (timer _)) :
  Forall (fun u => due u <= due t) q -> enqueue t q = q ++ [t].
Proof.
  induction 1 as [|u q Hu _ IH]; simpl; [reflexivity|].
  rewrite (proj2 (Nat.ltb_ge (due t) (due u)) Hu). now rewrite IH.
Qed.

Lemma fold_enqueue_in_order (ts : list (timer (nat * jsstring))) :
  forall q,
    in_order ts ->
    Forall (fun u => Forall (fun v => due u <= due v) ts) q ->
    fold_left (fun q t => enqueue t q) ts q = q ++ ts.
Proof.
  induction ts as [|t ts IH]; intros q Hord Hq; simpl.
  - now rewrite app_nil_r.
  - destruct Hord as [Ht Hord].
    rewrite enqueue_last.
    + rewrite IH; [now rewrite <- app_assoc | exact Hord |].
      apply Forall_app. split.
      * eapply Forall_impl; [|exact Hq]. intros u Hu. now inversion Hu.
      * now constructor.
    + eapply Forall_impl; [|exact Hq]. intros u Hu. now inversion Hu.
Qed.

Lemma firing_order_in_order (ts : list (timer (nat * jsstring))) :
  in_order ts -> firing_order ts = ts.
Proof.
  intros Hord. unfold firing_order.
  now rewrite fold_enqueue_in_order by (auto; constructor).
Qed.

Lemma partition_none (limit : nat) (ts : list (timer (nat * jsstring))) :
  Forall (fun u => limit < due u) ts ->
  partition (fun t => due t <=? limit) ts = ([], ts).
Proof.
  induction 1 as [|u ts Hu _ IH]; simpl; [reflexivity|].
  now rewrite IH, (proj2 (Nat.leb_gt (due u) limit) Hu).
Qed.

Lemma partition_in_order (limit : nat) (ts : list (timer (nat * jsstring))) :
  in_order ts ->
  ts = fst (partition (fun t => due t <=? limit) ts) ++
       snd (partition (fun t => due t <=? limit) ts) /\
  in_order (fst (partition (fun t => due t <=? limit) ts)) /\
  in_order (snd (partition (fun t => due t <=? limit) ts)).
Proof.
  induction ts as [|t ts IH]; intros Hord; simpl; [auto|].
  destruct Hord as [Ht Hord].
  destruct (Nat.leb_spec (due t) limit) as [Hle|Hgt].
  - destruct (IH Hord) as (Heq & Hready & Hrest).
    destruct (partition _ ts) as [ready rest] eqn:Hpart. simpl in *.
    split; [now rewrite Heq at 1|]. split; [|exact Hrest].
    split; [|exact Hready].
    rewrite Heq in Ht. apply Forall_app in Ht. tauto.
  - rewrite partition_none.
    + simpl. repeat split; assumption.
    + eapply Forall_impl; [|exact Ht]. intros u Hu. simpl in Hu. lia.
Qed.

Lemma in_order_snoc (ts : list (timer (nat * jsstring))) (t : timer _) :
  in_order ts -> Forall (fun u => due u <= due t) ts -> in_order (ts ++ [t]).
Proof.
  induction ts as [|u ts IH]; intros Hord Hall; simpl.
  - split; [constructor | exact I].
  - destruct Hord as [Hu Hord]. inversion Hall as [|? ? Hut Hall']; subst.
    split; [|now apply IH].
    apply Forall_app. split; [exact Hu | now constructor].
Qed.

Lemma combine_seq_snoc (l : list jsstring) (q : jsstring) :
  forall k,
    combine (seq k (S (List.length l))) (l ++ [q]) =
    combine (seq k (List.length l)) l ++ [(k + List.length l, q)].
Proof.
  induction l as [|x l IH]; intros k.
  - simpl. now rewrite Nat.add_0_r.
  - change (combine (seq k (S (List.length (x :: l)))) ((x :: l) ++ [q]))
      with ((k, x) :: combine (seq (S k) (S (List.length l))) (l ++ [q])).
    rewrite IH. simpl. repeat f_equal. lia.
Qed.

Lemma answers_snoc (w : world) (q : jsstring) :
  answers (getFruitListByQuery q w) =
  answers w ++ [answer (List.length (requested w), q)].
Proof.
  unfold answers, Api.answers, getFruitListByQuery. simpl.
  rewrite length_app, Nat.add_comm. cbn [List.length Nat.add].
  now rewrite combine_seq_snoc, map_app.
Qed.

(** The host waits for the API's latency in full. *)
Lemma timeout_latency : timeout latency = latency.
Proof. reflexivity. Qed.

Lemma consistent_init (t0 id0 : nat) : consistent (init t0 id0).
Proof. repeat split. intros t []. Qed.

Lemma consistent_step (w : world) (o : op) :
  consistent w -> consistent (step w o).
Proof.
  intros (Hord & Hdue & Hans). destruct o as [q|dt]; simpl.
  - unfold consistent, Api.consistent.
    rewrite answers_snoc. unfold getFruitListByQuery. simpl.
    split; [|split].
    + apply in_order_snoc; [exact Hord|].
      apply Forall_forall. intros u Hu. simpl. now apply Hdue.
    + intros t Hin. apply in_app_or in Hin. destruct Hin as [Hin|[<-|[]]].
      * now apply Hdue.
      * simpl. rewrite timeout_latency. lia.
    + rewrite !map_app, app_assoc, Hans. reflexivity.
  - unfold consistent, Api.consistent, elapse, Api.elapse, advance.
    destruct (@partition_in_order (now (env w) + dt) _ Hord)
      as (Heq & Hready & Hrest).
    destruct (partition _ (pending (env w))) as [ready rest] eqn:Hpart.
    simpl in *. split; [exact Hrest|]. split.
    + intros t Hin.
      assert (In t (pending (env w)))
        by (rewrite Heq; apply in_or_app; now right).
      specialize (Hdue t H). lia.
    + rewrite (firing_order_in_order ready Hready), <- app_assoc, <- !map_app.
      now rewrite <- Heq.
Qed.

Lemma consistent_run (ops : list op) :
  forall w, consistent w -> consistent (run ops w).
Proof.
  induction ops as [|o ops IH]; intros w Hc; simpl; [exact Hc|].
  apply IH. now apply consistent_step.
Qed.

(** X10. Whatever calls are made and however time passes, the promises
    resolved so far are the first ones asked for, in the order of the
    calls, each once and each with the list filtered for its own query;
    the others are still waiting on their timers.  The API never answers
    out of order. *)
Theorem answers_in_request_order (ops : list op) (t0 id0 : nat) :
  let w := run ops (init t0 id0) in
  prefix (resolved w) (answers w) /\
  map fst (answers w) = seq 0 (List.length (requested w)) /\
  List.length (resolved w) + List.length (pending (env w)) =
    List.length (requested w).
Proof.
  intros w.
  assert (Hc : consistent w) by (apply consistent_run, consistent_init).
  destruct Hc as (_ & _ & Hans).
  assert (Hlen : List.length (answers w) = List.length (requested w)).
  { unfold answers, Api.answers.
    rewrite length_map, length_combine, length_seq. lia. }
  split; [|split].
  - eexists. symmetry. exact Hans.
  - unfold answers, Api.answers. rewrite map_map.
    generalize (requested w) as l, 0 as k.
    induction l as [|x l IH]; intros k; simpl; [reflexivity|].
    now rewrite IH.
  - rewrite <- Hlen, <- Hans, length_app, !length_map. reflexivity.
Qed.

(** *** How long an answer takes *)

Lemma elapse_env (dt : nat) (w : world) :
  pending (env (elapse dt w)) =
    filter (fun t => negb (due t <=? now (env w) + dt)) (pending (env w)) /\
  now (env (elapse dt w)) = now (env w) + dt /\
  requested (elapse dt w) = requested w.
Proof.
  destruct (advance_spec dt (env w)) as (_ & Hp & Hn).
  unfold elapse, Api.elapse.
  destruct (advance dt (env w)) as [ran h]. simpl in *. auto.
Qed.

Lemma waits_frame (ws : list nat) :
  forall w,
    now (env (run (waits ws) w)) = now (env w) + total ws /\
    requested (run (waits ws) w) = requested w /\
    (forall t, In t (pending (env (run (waits ws) w))) ->
               In t (pending (env w))).
Proof.
  induction ws as [|d ws IH]; intros w; simpl.
  - rewrite Nat.add_0_r. auto.
  - destruct (IH (elapse d w)) as (Hn & Hr & Hsub).
    destruct (elapse_env d w) as (Hp & Hn' & Hr').
    fold (run (waits ws) (elapse d w)).
    rewrite Hn, Hr, Hn', Hr'. split; [lia|]. split; [reflexivity|].
    intros t Hin. apply Hsub in Hin. rewrite Hp in Hin.
    now apply filter_In in Hin.
Qed.

Lemma waits_keep (ws : list nat) :
  forall w t,
    In t (pending (env w)) ->
    now (env w) + total ws < due t ->
    In t (pending (env (run (waits ws) w))).
Proof.
  induction ws as [|d ws IH]; intros w t Hin Hlt; simpl in *; [exact Hin|].
  destruct (elapse_env d w) as (Hp & Hn & _).
  apply IH.
  - rewrite Hp. apply filter_In. split; [exact Hin|].
    apply negb_true_iff, Nat.leb_gt. lia.
  - rewrite Hn. lia.
Qed.

Lemma waits_leave_later (d : nat) (ws : list nat) :
  forall w t,
    In t (pending (env (run (waits (d :: ws)) w))) ->
    now (env w) + total (d :: ws) < due t.
Proof.
  revert d. induction ws as [|d' ws IH]; intros d w t Hin.
  - simpl in *. destruct (elapse_env d w) as (Hp & _).
    rewrite Hp in Hin. apply filter_In in Hin. destruct Hin as [_ Hlate].
    apply negb_true_iff, Nat.leb_gt in Hlate. lia.
  - change (run (waits (d :: d' :: ws)) w)
      with (run (waits (d' :: ws)) (elapse d w)) in Hin.
    apply IH in Hin. destruct (elapse_env d w) as (_ & Hn & _).
    rewrite Hn in Hin. simpl in *. lia.
Qed.

Lemma prefix_app_short (A : Type) (l a b : list A) :
  prefix l (a ++ b) -> List.length l <= List.length a -> prefix l a.
Proof.
  intros [rest Heq] Hlen. symmetry in Heq.
  apply app_eq_app in Heq.
  destruct Heq as [l0 [[Hl _]|[Ha _]]].
  - assert (l0 = []).
    { destruct l0; [reflexivity|]. rewrite Hl, length_app in Hlen.
      simpl in Hlen. lia. }
    subst l0. rewrite app_nil_r in Hl. subst l. exists []. now rewrite app_nil_r.
  - now exists l0.
Qed.

(** X11. A promise is resolved as soon as [latency] (500) has passed since
    its call, and not before: while less time has passed, only promises of
    earlier calls can be resolved; once it has passed, every promise asked
    for is resolved, this one last, with the list filtered for its query. *)
Theorem answer_after_latency
    (past : list op) (t0 id0 : nat) (q : jsstring) (d : nat) (ws : list nat) :
  let w0 := run past (init t0 id0) in
  let after := run (waits (d :: ws)) (getFruitListByQuery q w0) in
  if latency <=? total (d :: ws)
  then resolved after =
         answers w0 ++ [(List.length (requested w0), filteredData q)]
  else prefix (resolved after) (answers w0).
Proof.
  intros w0 after.
  set (w1 := getFruitListByQuery q w0) in *.
  assert (Hc0 : consistent w0) by (apply consistent_run, consistent_init).
  assert (Hc1 : consistent w1) by (apply (consistent_step (Get q) Hc0)).
  assert (Hc : consistent after) by (now apply consistent_run).
  destruct (waits_frame (d :: ws) w1) as (Hnow & Hreq & Hsub).
  fold after in Hnow, Hreq, Hsub.
  destruct Hc as (_ & _ & Hans).
  assert (Hsame : answers after = answers w1)
    by (unfold answers, Api.answers; now rewrite Hreq).
  rewrite Hsame in Hans. unfold w1 in Hans.
  rewrite (answers_snoc w0 q) in Hans.
  destruct (Nat.leb_spec latency (total (d :: ws))) as [Hlong|Hshort].
  - assert (Hnone : pending (env after) = []).
    { assert (Hno : forall t, ~ In t (pending (env after))).
      { intros t Hin.
        pose proof (waits_leave_later d ws w1 t Hin) as Hlate.
        destruct Hc1 as (_ & Hdue & _). specialize (Hdue t (Hsub t Hin)).
        lia. }
      destruct (pending (env after)) as [|t ts]; [reflexivity|].
      destruct (Hno t). now left. }
    rewrite Hnone in Hans. simpl in Hans. now rewrite app_nil_r in Hans.
  - set (tn := mkTimer (fresh (env w0)) (now (env w0) + latency)
                       (List.length (requested w0), q)).
    assert (Hin : In tn (pending (env after))).
    { apply waits_keep.
      - unfold w1, getFruitListByQuery. simpl. apply in_or_app. right.
        now left.
      - unfold w1, getFruitListByQuery. simpl due. simpl now. lia. }
    apply (@prefix_app_short _ _ _
             [answer (List.length (requested w0), q)]).
    + eexists. symmetry. exact Hans.
    + pose proof (f_equal (@List.length _) Hans) as Hlen.
      rewrite !length_app, !length_map in Hlen.
      destruct (pending (env after)); [destruct Hin|].
      simpl in Hlen. lia.
Qed.

End Mock.

Import Sample.

(** "App" after "ap": the results for "App" are among those for "ap". *)
Lemma longer_query_narrows_witness :
  occurs (toLowerCase (js "ap")) (toLowerCase (js "App")) /\
  filteredData toLowerCase fruits (js "App") =
    filter (fun it => includes (toLowerCase (name it))
                               (toLowerCase (js "App")))
           (filteredData toLowerCase fruits (js "ap")).
Proof.
  assert (H : occurs (toLowerCase (js "ap")) (toLowerCase (js "App")))
    by (exists 0; split; [simpl; lia | reflexivity]).
  split; [exact H|].
  exact (proj1 (@longer_query_narrows toLowerCase fruits
                  (js "ap") (js "App") H)).
Defined.

Lemma empty_query_returns_all_witness :
  toLowerCase [] = [] /\ filteredData toLowerCase fruits [] = fruits.
Proof.
  split; [reflexivity|].
  exact (@empty_query_returns_all toLowerCase fruits eq_refl).
Defined.

End ApiFacts.

(* ================================================================= *)
(** * Further properties of [highlightMatch] *)

Module HighlightMoreFacts.
Import JsString Highlight JsStringFacts HighlightFacts Api ApiFacts.

Section WithLowerCase.

Variable lower : jsstring -> jsstring.

Abbreviation highlightMatch := (highlightMatch lower).

Lemma starts_with_firstn (p s : jsstring) :
  starts_with p s = true -> firstn (List.length p) s = p.
Proof.
  intros H. apply starts_with_app in H. destruct H as [r ->].
  rewrite firstn_app, Nat.sub_diag, firstn_all. simpl.
  now rewrite app_nil_r.
Qed.

(** X12. Whatever the text and the query: the characters shown are those
    of the text, unchanged; the text is returned bare exactly when the
    lower-cased query does not occur in the lower-cased text; and when it
    does occur, the result is a fragment with exactly one emphasized
    segment. *)
Theorem highlight_result_shape (text query : jsstring) :
  let r := highlightMatch text query in
  shown r = text /\
  (r = Plain text <-> ~ occurs (lower query) (lower text)) /\
  (occurs (lower query) (lower text) ->
   exists before seg after,
     r = Fragment [Text before; Strong seg; Text after] /\
     emphasized r = [seg]).
Proof.
  intros r. split; [apply highlightMatch_shown|].
  destruct (highlightMatch_cases lower text query)
    as [[Hplain Hno]|(j & Heq & Hat & Hle & _)]; fold r in Hplain || fold r in Heq.
  - assert (Hnot : ~ occurs (lower query) (lower text)).
    { intros (i & Hi & Hs). rewrite (Hno i Hi) in Hs. discriminate. }
    split; [tauto|]. intros Hocc. contradiction.
  - assert (Hocc : occurs (lower query) (lower text)) by now exists j.
    split.
    + split; [rewrite Heq; discriminate | intros Hn; contradiction].
    + intros _. do 3 eexists. split; [exact Heq|]. now rewrite Heq.
Qed.

(** X13. When lower-casing acts unit by unit on the text and on the query
    (as it does on Basic Latin), and the query occurs in the text up to
    case, the emphasized segment is the first such occurrence: a piece of
    the text, in its original casing, whose lower case is the lower case of
    the query, with no occurrence starting before it; before, segment and
    after make up the text. *)
Theorem highlight_marks_first_match
    (f : nat -> nat) (text query : jsstring) :
  lower text = map f text ->
  lower query = map f query ->
  occurs (lower query) (lower text) ->
  exists before seg after,
    highlightMatch text query =
      Fragment [Text before; Strong seg; Text after] /\
    before ++ seg ++ after = text /\
    map f seg = map f query /\
    (forall i, i < List.length before ->
               starts_with (lower query) (skipn i (lower text)) = false).
Proof.
  intros Ht Hq Hocc.
  destruct (highlightMatch_cases lower text query)
    as [[_ Hno]|(j & Heq & Hat & Hle & Hbefore)].
  { destruct Hocc as (i & Hi & Hs). rewrite (Hno i Hi) in Hs.
    discriminate. }
  pose proof (starts_with_length _ _ Hat) as Hlen.
  rewrite length_skipn, Ht, Hq, !length_map in Hlen.
  rewrite Ht, length_map in Hle.
  do 3 eexists. split; [exact Heq|]. split; [|split].
  - apply substring_split. lia.
  - rewrite substring_of_nat by lia.
    rewrite <- firstn_map, <- skipn_map, <- Ht.
    replace (Nat.min (j + List.length query) (List.length text) -
             Nat.min j (List.length text))
      with (List.length (lower query))
      by (rewrite Hq, length_map; lia).
    rewrite Nat.min_l by lia.
    rewrite (starts_with_firstn _ _ Hat). exact Hq.
  - change 0%Z with (Z.of_nat 0).
    rewrite substring_of_nat, length_firstn, length_skipn by lia.
    intros i Hi. apply Hbefore. simpl in Hi. lia.
Qed.

(** X14. For the empty query (whose lower case is empty) every text comes
    back as a fragment, not bare: an empty emphasized segment in front of
    the whole text. *)
Theorem empty_query_emphasizes_nothing (text : jsstring) :
  lower [] = [] ->
  highlightMatch text [] = Fragment [Text []; Strong []; Text text] /\
  emphasized (highlightMatch text []) = [[]] /\
  highlightMatch text [] <> Plain text.
Proof.
  intros Hnil. rewrite (highlightMatch_empty_query lower text Hnil).
  repeat split. discriminate.
Qed.

End WithLowerCase.

Import Sample.

(** "APP" in "Pineapple": "app" is emphasized. *)
Lemma highlight_marks_first_match_witness :
  (toLowerCase (js "Pineapple") = map ascii_lower (js "Pineapple") /\
   toLowerCase (js "APP") = map ascii_lower (js "APP") /\
   occurs (toLowerCase (js "APP")) (toLowerCase (js "Pineapple"))) /\
  exists before seg after,
    Highlight.highlightMatch toLowerCase (js "Pineapple") (js "APP") =
      Fragment [Text before; Strong seg; Text after] /\
    before ++ seg ++ after = js "Pineapple" /\
    map ascii_lower seg = map ascii_lower (js "APP") /\
    (forall i, i < List.length before ->
               starts_with (toLowerCase (js "APP"))
                           (skipn i (toLowerCase (js "Pineapple"))) = false).
Proof.
  assert (H : occurs (toLowerCase (js "APP")) (toLowerCase (js "Pineapple")))
    by (exists 4; split; [simpl; lia | reflexivity]).
  split; [repeat split; exact H|].
  exact (@highlight_marks_first_match toLowerCase ascii_lower
           (js "Pineapple") (js "APP") eq_refl eq_refl H).
Defined.

Lemma empty_query_emphasizes_nothing_witness :
  toLowerCase [] = [] /\
  Highlight.highlightMatch toLowerCase (js "Apple") [] =
    Fragment [Text []; Strong []; Text (js "Apple")].
Proof.
  split; [reflexivity|].
  exact (proj1 (@empty_query_emphasizes_nothing toLowerCase (js "Apple")
                  eq_refl)).
Defined.

End HighlightMoreFacts.

(* ================================================================= *)
(** * Properties of the [Autocomplete] component *)

Module AutocompleteFacts.
Import Timer JsString Highlight Hook Autocomplete.
Import JsStringFacts HighlightFacts HighlightMoreFacts HookFacts HookTraceFacts.

Section Component.

Variable lower : jsstring -> jsstring.
Variable E : Type.

Abbreviation item := Scenario.item.
Abbreviation state := (state (list item) E).
Abbreviation event := (event (list item) E).
Abbreviation dropdown := (@dropdown lower E).
Abbreviation show := (@show lower E).
Abbreviation app := (app E).

(** X15. When the dropdown holds a list, it has one row per item of
    [data], in the order of [data], keyed by the item's [id], and each row
    reads as the item's [name], character for character, whatever part of
    it is emphasized. *)
Theorem rows_show_names
    (query : jsstring) (v : visible (list item) E)
    (rows : list (nat * rendered)) :
  dropdown query v = Results rows ->
  exists d,
    data v = Some d /\ loading v = false /\ loaded v = true /\
    map fst rows = map Api.id d /\
    map row_text rows = map Api.name d.
Proof.
  set (row := fun it : item =>
                (fst it, highlightMatch lower (snd it) query)).
  assert (Hids : forall d, map fst (map row d) = map Api.id d)
    by (intros d; now rewrite map_map).
  assert (Hnames : forall d, map row_text (map row d) = map Api.name d).
  { intros d. rewrite map_map. apply map_ext. intros it.
    unfold row_text. simpl. apply highlightMatch_shown. }
  unfold dropdown, Autocomplete.dropdown.
  destruct (loading v); [discriminate|].
  destruct (loaded v); [|discriminate].
  destruct (data v) as [[|first more]|]; try discriminate.
  fold row. intros [= <-]. exists (first :: more).
  split; [reflexivity|]. split; [reflexivity|]. split; [reflexivity|].
  split; [apply (Hids (first :: more)) | apply (Hnames (first :: more))].
Qed.

(** X16. A fetch that fails is shown as "No results found.": the component
    does not read [error], and after the rejection of a fetch during which
    no other fetch resolved, [data] is [null], so the dropdown holds the
    no-results line, whatever the query is by then. *)
Theorem failure_reads_no_results
    (delay : nat) (s0 : state) (q : jsstring) (mid : list event) (e : E)
    (query_now : jsstring) :
  q <> [] ->
  Forall (leaves_pending (List.length (fetched s0))) mid ->
  Forall (@resolves_nothing (list item) E) mid ->
  let final := step delay (Hook.run delay mid (fetch_action q s0))
                    (Settle (List.length (fetched s0))
                            (Rejected (list item) e)) in
  error (vis final) = Some e /\
  dropdown query_now (vis final) = NoResults.
Proof.
  intros Hne Hmid Hquiet final.
  destruct (dispatched_awaited s0 Hne) as (_ & Ha & Hv).
  assert (Hb : awaited (List.length (fetched s0))
                       (Hook.run delay mid (fetch_action q s0)) = true)
    by now apply awaited_run.
  destruct (settle_rejected _ e _ Hb) as [Hvis _].
  assert (Hd : data (vis (Hook.run delay mid (fetch_action q s0))) = None).
  { apply data_none_run; [exact Hquiet | now rewrite Hv]. }
  unfold final. simpl. rewrite Hvis, Hd. split; reflexivity.
Qed.

(** *** The component as a whole *)

Lemma untouched_until_entered (delay : nat) (s : state) :
  reachable delay s ->
  entered s = [] ->
  vis s = mkVisible None false false None /\ inflight s = [].
Proof.
  induction 1 as [q t0 id0|s ev _ IH]; [now auto|].
  destruct ev as [q|dt|i o]; simpl.
  - destruct (render_traces delay q s) as (-> & _).
    destruct (render_frame delay q s) as (-> & -> & _). exact IH.
  - unfold elapse. destruct (advance dt (env s)) as [ran h].
    destruct (actions_traces ran (with_env h s)) as (Hen & _).
    intros Hnil. rewrite Hen in Hnil. apply app_eq_nil in Hnil.
    destruct Hnil as [Hnil ->]. simpl. now apply IH.
  - destruct (settle_frame i o s) as (_ & _ & _ & _ & ->).
    intros Hnil. destruct (IH Hnil) as [Hv Hi].
    unfold settle, awaited. rewrite Hi. simpl. auto.
Qed.

Lemma hook_of_app (xs : list (action E)) :
  forall a : app,
    reachable Autocomplete.delay (fetching a) ->
    reachable Autocomplete.delay (fetching (play xs a)).
Proof.
  induction xs as [|x xs IH]; intros a Hr; simpl; [exact Hr|].
  apply IH. destruct x as [v|b|dt|i o]; simpl.
  - apply (reach_step (Render _ _ v) Hr).
  - exact Hr.
  - apply (reach_step (Wait _ _ dt) Hr).
  - apply (reach_step (Settle i o) Hr).
Qed.

(** X17. Whatever the user does and whatever comes back, the dropdown is
    open only if the input has the focus, the query is not empty, and the
    action of some query has run; in particular it stays closed until the
    first delay has passed. *)
Theorem open_only_after_first_action
    (xs : list (action E)) (t0 id0 : nat) :
  let a := play xs (start E t0 id0) in
  open (show a) = true ->
  focused a = true /\ query (fetching a) <> [] /\
  entered (fetching a) <> [].
Proof.
  intros a. unfold show, Autocomplete.show, dropDownVisible. simpl.
  rewrite !andb_true_iff. intros [[Hbusy Hlen] Hfocus].
  split; [exact Hfocus|]. split.
  - intros Hq. rewrite Hq in Hlen. discriminate.
  - intros Hnil.
    assert (Hr : reachable Autocomplete.delay (fetching a)).
    { apply hook_of_app. simpl. constructor. }
    destruct (untouched_until_entered Hr Hnil) as [Hv _].
    rewrite Hv in Hbusy. discriminate.
Qed.

(** X18. When the data on display is what the mock API returns for the
    current query, the dropdown holds the no-results line if nothing
    matches, and otherwise one row per matching item of [FRUIT_DATA], in
    its order, each with an emphasized segment. *)
Theorem fresh_results_are_emphasized
    (DATA : list item) (query : jsstring) (err : option E) :
  let found := Api.filteredData lower DATA query in
  let v := mkVisible (Some found) false true err in
  (found = [] /\ dropdown query v = NoResults) \/
  (exists rows,
      dropdown query v = Results rows /\
      map fst rows = map Api.id found /\
      Forall (fun row => exists before seg after,
                  snd row = Fragment [Text before; Strong seg; Text after])
             rows).
Proof.
  intros found v. subst v. unfold dropdown, Autocomplete.dropdown.
  cbn [loading loaded data].
  set (mk := fun it : item =>
               (fst it, highlightMatch lower (snd it) query)).
  destruct found as [|first more] eqn:Hfound; [now left|].
  right. exists (map mk (first :: more)).
  split; [reflexivity|]. split.
  - now rewrite map_map.
  - rewrite <- Hfound. apply Forall_forall. intros row Hin.
    apply in_map_iff in Hin. destruct Hin as (it & <- & Hit).
    apply ApiFacts.filteredData_In in Hit. destruct Hit as [_ Hocc].
    destruct (highlight_result_shape lower (snd it) query)
      as (_ & _ & Hfrag).
    destruct (Hfrag Hocc) as (before & seg & after & Heq & _).
    simpl. now exists before, seg, after.
Qed.

End Component.

Import Scenario.

Lemma rows_show_names_witness :
  dropdown toLowerCase (js "ap")
           (mkVisible (Some apple) false true (@None jsstring)) =
    Results [(1, Fragment [Text []; Strong (js "Ap"); Text (js "ple")])] /\
  exists d,
    Some apple = Some d /\
    map fst [(1, Fragment [Text []; Strong (js "Ap"); Text (js "ple")])] =
      map Api.id d /\
    map row_text [(1, Fragment [Text []; Strong (js "Ap"); Text (js "ple")])]
      = map Api.name d.
Proof.
  assert (H : dropdown toLowerCase (js "ap")
                (mkVisible (Some apple) false true (@None jsstring)) =
              Results [(1, Fragment [Text []; Strong (js "Ap");
                                     Text (js "ple")])])
    by reflexivity.
  split; [exact H|].
  destruct (@rows_show_names toLowerCase jsstring _ _ _ H)
    as (d & Hd & _ & _ & Hids & Hnames).
  exists d. auto.
Defined.

Lemma failure_reads_no_results_witness :
  (js "ap" <> [] /\
   Forall (leaves_pending (List.length (fetched (mounted (js "ap")))))
          [Wait (list item) jsstring 500] /\
   Forall (@resolves_nothing (list item) jsstring)
          [Wait (list item) jsstring 500]) /\
  dropdown toLowerCase (js "ap")
    (vis (step default_delay
            (run default_delay [Wait _ _ 500]
                 (fetch_action (js "ap") (mounted (js "ap"))))
            (Settle 0 (Rejected (list item) network_down))))
  = NoResults.
Proof.
  assert (H1 : js "ap" <> []) by discriminate.
  assert (H2 : Forall (leaves_pending
                         (List.length (fetched (mounted (js "ap")))))
                      [Wait (list item) jsstring 500])
    by (repeat constructor).
  assert (H3 : Forall (@resolves_nothing (list item) jsstring)
                      [Wait (list item) jsstring 500])
    by (repeat constructor).
  split; [auto|].
  exact (proj2 (@failure_reads_no_results toLowerCase jsstring default_delay
                  (mounted (js "ap")) (js "ap") _ network_down (js "ap")
                  H1 H2 H3)).
Defined.

(** Focus, type "a", wait for the delay: the dropdown is open, loading. *)
Lemma open_only_after_first_action_witness :
  let a := play [FocusChange jsstring true; Change jsstring (js "a");
                 Tick jsstring 400]
                (start jsstring 0 1) in
  open (show toLowerCase a) = true /\
  focused a = true /\ query (fetching a) <> [] /\
  entered (fetching a) <> [].
Proof.
  intros a.
  assert (H : open (show toLowerCase a) = true) by reflexivity.
  split; [exact H|].
  exact (@open_only_after_first_action toLowerCase jsstring _ 0 1 H).
Defined.

End AutocompleteFacts.

(* ================================================================= *)
(** * The hook with an API that answers in order *)

Module HookApiFacts.
Import Timer JsString Hook TimerFacts JsStringFacts HookFacts Trace.
Import TraceFacts HookTraceFacts.

Section Controller.

Variable T : Type.
Variable E : Type.
Variable delay : nat.
Variable resp : jsstring -> T.

Abbreviation state := (state T E).
Abbreviation event := (event T E).
Abbreviation step := (@step T E delay).
Abbreviation run := (@run T E delay).
Abbreviation reachable := (@reachable T E delay).

Lemma filter_all (A : Type) (f : A -> bool) (l : list A) :
  (forall x, In x l -> f x = true) -> filter f l = l.
Proof.
  induction l as [|x l IH]; intros Hall; simpl; [reflexivity|].
  rewrite (Hall x (or_introl eq_refl)), IH; [reflexivity|].
  intros y Hy. apply Hall. now right.
Qed.

Lemma filter_seq_head (k m : nat) :
  filter (fun j => negb (j =? k)) (seq k (S m)) = seq (S k) m.
Proof.
  simpl. rewrite Nat.eqb_refl. simpl. apply filter_all.
  intros x Hx. apply in_seq in Hx.
  apply negb_true_iff, Nat.eqb_neq. lia.
Qed.

Lemma nth_error_snoc (A : Type) (l : list A) (x : A) :
  nth_error (l ++ [x]) (List.length l) = Some x.
Proof.
  rewrite nth_error_app2 by lia. now rewrite Nat.sub_diag.
Qed.

(** *** One action *)

Lemma action_awaits_latest (q : jsstring) (s : state) :
  awaits_latest s -> awaits_latest (fetch_action q s).
Proof.
  intros (k & Hk & Hin).
  destruct (fetch_action_traces q s) as (_ & Hfe & Hi).
  unfold awaits_latest. rewrite Hfe, Hi, Hin.
  destruct (eqb q []).
  - rewrite !app_nil_r. now exists k.
  - exists k. rewrite length_app. simpl. split; [lia|].
    replace (List.length (fetched s) + 1 - k)
      with (S (List.length (fetched s) - k)) by lia.
    rewrite seq_S. repeat f_equal. lia.
Qed.

Lemma action_shows_latest (q : jsstring) (s : state) :
  shows_latest resp (fetch_action q s).
Proof.
  intros before q' Hen Hne Hnone.
  destruct (fetch_action_traces q s) as (Hen' & _ & Hi).
  rewrite Hen' in Hen. apply app_inj_tail in Hen. destruct Hen as [_ <-].
  unfold nonempty in Hne. apply negb_true_iff in Hne.
  rewrite Hi, Hne in Hnone. apply app_eq_nil in Hnone.
  destruct Hnone as [_ Hnone]. discriminate.
Qed.

(** *** The invariant *)

Abbreviation in_step := (in_step delay resp).
Abbreviation in_turn := (in_turn resp).

Lemma in_step_mount (q : jsstring) (t0 id0 : nat) :
  in_step (mount T E delay q t0 id0).
Proof.
  split; [constructor|]. rewrite mount_state. split; [|split].
  - exists 0. simpl. auto.
  - intros before q' Hen. simpl in Hen. destruct before; discriminate.
  - intros Hp. discriminate.
Qed.

Lemma in_step_wait (s : state) (dt : nat) :
  in_step s -> in_step (step s (Wait T E dt)).
Proof.
  intros (Hr & Haw & Hsh & Hcu).
  split; [now constructor|]. simpl.
  destruct (reachable_single_timer Hr) as [Hnil|(id & d & Hid & Hp)].
  - rewrite (hook_elapse_idle dt _ Hnil). split; [|split].
    + exact Haw.
    + exact Hsh.
    + intros _. apply (Hcu Hnil).
  - rewrite (hook_elapse_armed dt _ Hp). cbn [due callback].
    destruct (d <=? now (env s) + dt).
    + set (s0 := with_env (mkHost (now (env s) + dt) (fresh (env s)) []) s).
      split; [|split].
      * apply action_awaits_latest. exact Haw.
      * apply action_shows_latest.
      * intros _.
        destruct (fetch_action_traces (query s) s0) as (Hen & _).
        destruct (fetch_action_frame (query s) s0) as (_ & _ & Hq & _).
        rewrite Hen, Hq. now exists (entered s).
    + split; [exact Haw|]. split; [exact Hsh|].
      intros Hnone. discriminate.
Qed.

Lemma in_step_render (s : state) (q : jsstring) :
  in_step s -> in_step (step s (Render T E q)).
Proof.
  intros (Hr & Haw & Hsh & Hcu).
  split; [now constructor|].
  change (step s (Render T E q)) with (Hook.render delay q s).
  destruct (render_frame delay q s) as (Hv & Hi & _).
  destruct (render_traces delay q s) as (Hen & Hfe & Hq).
  split; [|split].
  - unfold awaits_latest. now rewrite Hi, Hfe.
  - unfold shows_latest. now rewrite Hen, Hi, Hv.
  - destruct (eqb q (query s)) eqn:Heq.
    + apply eqb_eq in Heq. subst q. now rewrite render_same.
    + assert (Hne : q <> query s).
      { intros ->. now rewrite eqb_refl in Heq. }
      rewrite (render_new delay (reachable_tidy Hr) Hne).
      intros Hnone. discriminate.
Qed.

Lemma in_step_settle (s : state) (i : nat) (o : outcome T E) :
  in_step s -> in_turn s (Settle i o) -> in_step (step s (Settle i o)).
Proof.
  intros (Hr & Haw & Hsh & Hcu) (Hhd & q & Hnth & ->).
  split; [now constructor|]. simpl.
  destruct Haw as (k & Hk & Hin).
  assert (Ha : awaited i s = true).
  { apply awaited_In. destruct (inflight s); [discriminate|].
    injection Hhd as ->. now left. }
  destruct (settle_fulfilled i (resp q) s Ha) as [Hv _].
  destruct (settle_frame i (Fulfilled E (resp q)) s)
    as (He & _ & Hq & Hfe & Hen).
  pose proof (settle_inflight_eq i (Fulfilled E (resp q)) s Ha) as Hi.
  rewrite Hin in Hhd, Hi.
  destruct (List.length (fetched s) - k) as [|m] eqn:Hm; [discriminate|].
  simpl in Hhd. injection Hhd as <-.
  rewrite filter_seq_head in Hi.
  split; [|split].
  - exists (S k). rewrite Hfe, Hi. split; [lia|]. f_equal. lia.
  - intros before ql Hent Hne Hnone.
    rewrite Hv. rewrite Hen in Hent. rewrite Hi in Hnone.
    destruct m; [|discriminate].
    assert (Hf : fetched s = filter nonempty before ++ [ql]).
    { rewrite (fetched_of_entered Hr), Hent, filter_app. simpl.
      now rewrite Hne. }
    assert (Hk' : k = List.length (filter nonempty before)).
    { rewrite Hf, length_app in Hm. simpl in Hm. lia. }
    rewrite Hf, Hk', nth_error_snoc in Hnth. injection Hnth as ->.
    reflexivity.
  - unfold caught_up. rewrite He, Hen, Hq. exact Hcu.
Qed.

Lemma in_step_run (evs : list event) :
  forall s : state,
    in_step s -> answered_in_order resp delay evs s ->
    in_step (run evs s).
Proof.
  induction evs as [|ev evs IH]; intros s Hs Hall; [exact Hs|].
  destruct Hall as [Hev Hrest]. simpl. apply IH; [|exact Hrest].
  destruct ev as [q|dt|i o].
  - now apply in_step_render.
  - now apply in_step_wait.
  - now apply in_step_settle.
Qed.

(** X19. With an API that answers in the order of the calls, by a function
    [resp] of the query, and never rejects (as the mock API does): once no
    timer is queued and no promise is awaited, and the query is not empty,
    the hook is loaded with exactly the answer for the current query, and
    no error.  Results of earlier queries can only be on display in
    between. *)
Theorem settled_shows_current_answer
    (q0 : jsstring) (t0 id0 : nat) (evs : list event) :
  answered_in_order resp delay evs (mount T E delay q0 t0 id0) ->
  let s := run evs (mount T E delay q0 t0 id0) in
  pending (env s) = [] ->
  inflight s = [] ->
  query s <> [] ->
  vis s = mkVisible (Some (resp (query s))) false true None.
Proof.
  intros Hall s Hidle Hnone Hq.
  destruct (@in_step_run evs _ (in_step_mount q0 t0 id0) Hall)
    as (_ & _ & Hsh & Hcu).
  fold s in Hsh, Hcu.
  destruct (Hcu Hidle) as [before Hen].
  apply (Hsh before (query s) Hen); [|exact Hnone].
  unfold nonempty. now rewrite (eqb_neq Hq).
Qed.

End Controller.

Import Scenario Sample.

(** The two overlapping fetches of "a" and "ap", answered in order by the
    filter of the mock API: in the end the results for "ap" are shown. *)
Lemma settled_shows_current_answer_witness :
  let resp := Api.filteredData toLowerCase fruits in
  let evs := two_fetches ++
             [Settle 0 (Fulfilled jsstring (resp (js "a")));
              Settle 1 (Fulfilled jsstring (resp (js "ap")))] in
  let s := run default_delay evs (mounted (js "a")) in
  (answered_in_order resp default_delay evs (mounted (js "a")) /\
   pending (env s) = [] /\ inflight s = [] /\ query s <> []) /\
  vis s = mkVisible (Some [(1, js "Apple"); (3, js "Grape");
                           (4, js "Pineapple")])
                    false true None.
Proof.
  intros resp evs s.
  assert (H1 : answered_in_order resp default_delay evs (mounted (js "a"))).
  { repeat split.
    - exists (js "a"). split; reflexivity.
    - exists (js "ap"). split; reflexivity. }
  assert (H2 : pending (env s) = []) by reflexivity.
  assert (H3 : inflight s = []) by reflexivity.
  assert (H4 : query s <> []) by discriminate.
  split; [auto|].
  exact (@settled_shows_current_answer (list item) jsstring default_delay
           resp (js "a") 0 1 evs H1 H2 H3 H4).
Defined.

End HookApiFacts.
